(** * Resonator: the Kerr-detuning cubic resolver and the shunt models

    A shallow embedding of [resonator/nonlinear.py] and [resonator/shunt.py].

    Numbers.  The Python code computes with IEEE binary64 values held in
    numpy arrays.  This development idealises them: a finite float is a real
    number ([R]) and every arithmetic operation is exact.  What the source
    states "within tolerance" is therefore stated here as an equality of
    the exact values.

    In [kerr_detuning] and the models the one way the exact code leaves the
    finite numbers on finite inputs is a division by zero (numpy's [nan] or
    [inf], a [ZeroDivisionError] for plain Python floats).  Such a value is
    [None] in the type [fval] = [option R]; the model does not follow it
    further, so [None] is absorbing.  In [guess_smooth] the result depends
    on what a division by zero gives, and its divisions are modelled in the
    type [ieee], with the infinities and [nan] of float64 arithmetic.

    Where the doubles part from the exact values.  Two places matter, and
    module [Binary64] evaluates the coefficient arithmetic of lines 39-53
    in IEEE binary64 itself at each of them.  First, the sum under the cube
    root of line 51 cancels: for [delta1 < 0] and [delta0] close to zero it
    is rounding noise, exactly zero on an interval of detunings, and line 53
    then divides by zero although [delta0] is not zero.  The properties of
    the returned roots are therefore stated for the detunings that are
    [well_conditioned], clear of that zone.  Second, the masks of lines
    46-48 compare the discriminant with zero: a point at which the exact
    discriminant vanishes can fall on either side on doubles.  What is
    stated about the bifurcation threshold is stated of the discriminant in
    exact arithmetic, not of the branch the doubles take there.

    Arrays.  A 1-D numpy array is a list.  Boolean-mask indexing [a[mask]]
    is [select], masked assignment [a[mask] = v] is [setmask] and follows
    numpy: the value must have one entry per [True] of the mask, or a single
    entry that is broadcast; anything else is a [ValueError]. *)

From Stdlib Require Import Reals Lra Lia Psatz List Bool Arith.
From Stdlib Require Floats String.
Import String.StringSyntax.
Delimit Scope string_scope with string.
Import ListNotations.
Open Scope R_scope.

(* ===================================================================== *)
(** ** Exceptions *)

Inductive exn : Type := ValueError | IndexError | NotImplementedError.

Inductive result (A : Type) : Type :=
| Ok (a : A)
| Raise (e : exn).
Arguments Ok {A} a.
Arguments Raise {A} e.

Definition bind {A B : Type} (m : result A) (k : A -> result B) : result B :=
  match m with
  | Ok a => k a
  | Raise e => Raise e
  end.

Notation "x <- m ;; k" := (bind m (fun x => k))
  (at level 61, m at next level, right associativity).

(* ===================================================================== *)
(** ** Idealised floats *)

Module Num.

(** A float: [Some x] is the finite value [x], [None] is not a finite
    number. *)
Definition fval : Type := option R.

Definition lift1 (f : R -> R) (a : fval) : fval := option_map f a.

Definition lift2 (f : R -> R -> R) (a b : fval) : fval :=
  match a, b with
  | Some x, Some y => Some (f x y)
  | _, _ => None
  end.

Definition fadd : fval -> fval -> fval := lift2 Rplus.
Definition fsub : fval -> fval -> fval := lift2 Rminus.
Definition fmul : fval -> fval -> fval := lift2 Rmult.
Definition fneg : fval -> fval := lift1 Ropp.

(** Division: a zero divisor leaves the finite numbers. *)
Definition fdiv (a b : fval) : fval :=
  match a, b with
  | Some x, Some y => if Req_dec_T y 0 then None else Some (x / y)
  | _, _ => None
  end.

(** [np.sqrt] on a real array: [nan] on a negative argument. *)
Definition np_sqrt (a : fval) : fval :=
  match a with
  | Some x => if Rlt_dec x 0 then None else Some (sqrt x)
  | None => None
  end.

(** The real cube root, [np.cbrt]: odd, defined on the whole line. *)
Definition cbrt (x : R) : R :=
  if Rlt_dec 0 x then Rpower x (/ 3)
  else if Rlt_dec x 0 then - Rpower (- x) (/ 3)
  else 0.

Definition np_cbrt : fval -> fval := lift1 cbrt.

(** [np.minimum] and [np.maximum]: [nan] propagates. *)
Definition fmin : fval -> fval -> fval := lift2 Rmin.
Definition fmax : fval -> fval -> fval := lift2 Rmax.

(** A float that may also be infinite or not a number, for the code whose
    result depends on what a division by zero gives: numpy divides a
    [float64] by zero without raising.  The one zero of the reals stands for
    [+0.0]. *)
Inductive ieee : Type :=
| Finite (x : R)
| PosInf
| NegInf
| NaN.

Definition ieee_neg (a : ieee) : ieee :=
  match a with
  | Finite x => Finite (- x)
  | PosInf => NegInf
  | NegInf => PosInf
  | NaN => NaN
  end.

Definition ieee_add (a b : ieee) : ieee :=
  match a, b with
  | NaN, _ | _, NaN => NaN
  | Finite x, Finite y => Finite (x + y)
  | PosInf, NegInf | NegInf, PosInf => NaN
  | PosInf, _ | _, PosInf => PosInf
  | NegInf, _ | _, NegInf => NegInf
  end.

Definition ieee_sub (a b : ieee) : ieee := ieee_add a (ieee_neg b).

(** An infinity times, or divided by, the finite [x]; [0 * inf] is not a
    number. *)
Definition ieee_scale_inf (x : R) (inf : ieee) : ieee :=
  if Rlt_dec 0 x then inf
  else if Rlt_dec x 0 then ieee_neg inf
  else NaN.

Definition ieee_mul (a b : ieee) : ieee :=
  match a, b with
  | NaN, _ | _, NaN => NaN
  | Finite x, Finite y => Finite (x * y)
  | Finite x, inf | inf, Finite x => ieee_scale_inf x inf
  | PosInf, PosInf | NegInf, NegInf => PosInf
  | PosInf, NegInf | NegInf, PosInf => NegInf
  end.

Definition ieee_div (a b : ieee) : ieee :=
  match a, b with
  | NaN, _ | _, NaN => NaN
  | Finite x, Finite y =>
      if Req_dec_T y 0 then ieee_scale_inf x PosInf else Finite (x / y)
  | Finite _, _ => Finite 0
  | inf, Finite y => if Rlt_dec y 0 then ieee_neg inf else inf
  | _, _ => NaN
  end.

(** Comparisons of finite values, as the booleans numpy puts in a mask. *)
Definition Rgtb (x y : R) : bool := if Rlt_dec y x then true else false.
Definition Rltb (x y : R) : bool := if Rlt_dec x y then true else false.
Definition Reqb (x y : R) : bool := if Req_dec_T x y then true else false.
Definition Rneqb (x y : R) : bool := negb (Reqb x y).

End Num.
Export Num.

Infix "+!" := fadd (at level 50, left associativity).
Infix "-!" := fsub (at level 50, left associativity).
Infix "*!" := fmul (at level 40, left associativity).
Infix "/!" := fdiv (at level 40, left associativity).

(* ===================================================================== *)
(** ** Complex numbers *)

Module Cx.

Record C : Type := mkC { re : R; im : R }.

Definition cval : Type := option C.

Definition of_real (x : R) : C := mkC x 0.
Definition Cadd (z w : C) : C := mkC (re z + re w) (im z + im w).
Definition Csub (z w : C) : C := mkC (re z - re w) (im z - im w).
Definition Cmul (z w : C) : C :=
  mkC (re z * re w - im z * im w) (re z * im w + im z * re w).
Definition Cscale (k : R) (z : C) : C := mkC (k * re z) (k * im z).
Definition Cnorm2 (z : C) : R := re z * re z + im z * im z.

(** [np.abs] of a complex number. *)
Definition Cabs (z : C) : R := sqrt (Cnorm2 z).

(** Complex division; dividing by zero leaves the finite numbers. *)
Definition Cdiv (z w : C) : cval :=
  if Req_dec_T (Cnorm2 w) 0 then None
  else Some (mkC ((re z * re w + im z * im w) / Cnorm2 w)
                 ((im z * re w - re z * im w) / Cnorm2 w)).

(** Principal square root: the branch with non-negative real part, the
    imaginary part taking the sign of [im z] (and [+] on the negative real
    axis, where numpy's argument carries [+0.0]). *)
Definition Csqrt (z : C) : C :=
  mkC (sqrt ((Cabs z + re z) / 2))
      ((if Rlt_dec (im z) 0 then -1 else 1) * sqrt ((Cabs z - re z) / 2)).

(** Principal argument, in (-PI, PI]. *)
Definition Carg (z : C) : R :=
  if Rlt_dec (im z) 0 then - acos (re z / Cabs z) else acos (re z / Cabs z).

(** [z ** p] for a real exponent [p > 0]: [0 ** p = 0], and otherwise the
    principal branch [exp (p * log z)]. *)
Definition Cpow (z : C) (p : R) : C :=
  if Req_dec_T (Cnorm2 z) 0 then mkC 0 0
  else mkC (Rpower (Cabs z) p * cos (p * Carg z))
           (Rpower (Cabs z) p * sin (p * Carg z)).

(** Lifting to values that may be non-finite. *)
Definition clift2 (f : C -> C -> C) (a b : cval) : cval :=
  match a, b with
  | Some z, Some w => Some (f z w)
  | _, _ => None
  end.

Definition cdiv (a b : cval) : cval :=
  match a, b with
  | Some z, Some w => Cdiv z w
  | _, _ => None
  end.

Definition cadd : cval -> cval -> cval := clift2 Cadd.
Definition csub : cval -> cval -> cval := clift2 Csub.
Definition cmul : cval -> cval -> cval := clift2 Cmul.
Definition creal (a : cval) : fval := option_map re a.
Definition cimag (a : cval) : fval := option_map im a.
Definition cof (a : fval) : cval := option_map of_real a.

End Cx.
Export Cx.

(* ===================================================================== *)
(** ** numpy arrays as lists *)

Module Np.

Section Arrays.
Context {A : Type}.

(** [a[mask]] *)
Fixpoint select (mask : list bool) (a : list A) : list A :=
  match mask, a with
  | m :: ms, x :: xs => if m then x :: select ms xs else select ms xs
  | _, _ => []
  end.

(** [mask.any()] *)
Definition any (mask : list bool) : bool := existsb (fun m => m) mask.

(** Number of [True] entries of a mask. *)
Fixpoint count (mask : list bool) : nat :=
  match mask with
  | [] => 0
  | m :: ms => (if m then 1 else 0) + count ms
  end.

(** The entries of [v], in order, written at the [True] positions. *)
Fixpoint put (a : list A) (mask : list bool) (v : list A) : list A :=
  match a, mask with
  | x :: xs, m :: ms =>
      if m then
        match v with
        | y :: ys => y :: put xs ms ys
        | [] => x :: xs
        end
      else x :: put xs ms v
  | _, _ => a
  end.

(** [a[mask] = v] *)
Definition setmask (a : list A) (mask : list bool) (v : list A)
  : result (list A) :=
  if Nat.eqb (length v) (count mask) then Ok (put a mask v)
  else match v with
       | [y] => Ok (put a mask (repeat y (count mask)))
       | _ => Raise ValueError
       end.
End Arrays.

Section Zip.
Context {A B D E : Type}.

Fixpoint zip_with (f : A -> B -> D) (a : list A) (b : list B) : list D :=
  match a, b with
  | x :: xs, y :: ys => f x y :: zip_with f xs ys
  | _, _ => []
  end.

Fixpoint zip_with3 (f : A -> B -> D -> E)
         (a : list A) (b : list B) (d : list D) : list E :=
  match a, b, d with
  | x :: xs, y :: ys, z :: zs => f x y z :: zip_with3 f xs ys zs
  | _, _, _ => []
  end.
End Zip.

(** [f.reduce(rows, axis=0)] for a binary ufunc [f]: the rows of the stacked
    array are combined entry by entry. *)
Definition reduce_axis0 (f : fval -> fval -> fval) (rows : list (list fval))
  : list fval :=
  match rows with
  | [] => []
  | r :: rs => fold_left (zip_with f) rs r
  end.

(** [np.min(rows, axis=0)] and [np.max(rows, axis=0)] *)
Definition np_min : list (list fval) -> list fval := reduce_axis0 fmin.
Definition np_max : list (list fval) -> list fval := reduce_axis0 fmax.

(** The stacked array [np.vstack(rows)] read along axis 0: entry [j] is
    column [j], the candidates of point [j]. *)
Fixpoint columns (rows : list (list fval)) : list (list fval) :=
  match rows with
  | [] => []
  | r :: rs =>
      match rs with
      | [] => map (fun v => [v]) r
      | _ :: _ => zip_with cons r (columns rs)
      end
  end.

(** The contract of a tie-break function: it reduces the stacked array
    along axis 0, and what it returns for a column is related to that
    column by [CS]. *)
Definition choose_spec (CS : list fval -> fval -> Prop)
           (choose : list (list fval) -> list fval) : Prop :=
  forall rows, Forall2 CS (columns rows) (choose rows).

(** The tie-break returns one of the candidates. *)
Definition picks (col : list fval) (v : fval) : Prop := In v col.

(** The tie-break folds a binary operation over the candidates. *)
Definition folds (f : fval -> fval -> fval) (col : list fval) (v : fval)
  : Prop :=
  match col with
  | [] => False
  | a :: rest => v = fold_left f rest a
  end.

End Np.
Export Np.

(* ===================================================================== *)
(** ** [resonator/nonlinear.py] *)

Module Nonlinear.

(** The argument [detuning] as Python sees it.  The docstring admits "a 1D
    array[float] or single float", and the code handles a zero-dimensional
    array besides: these are the three kinds of input. *)
Inductive value : Type :=
| PyFloat (x : R)              (* a Python or numpy scalar *)
| Array0 (x : R)               (* an ndarray of shape () *)
| Array1 (xs : list R).        (* an ndarray of shape (len(xs),) *)

(** What is returned: [roots[0]], a numpy scalar, or the array [roots]. *)
Inductive out (A : Type) : Type :=
| Scalar (v : A)
| Array (vs : list A).
Arguments Scalar {A} v.
Arguments Array {A} vs.

(** [np.shape] of an argument and of a returned value. *)
Definition shape_of (v : value) : list nat :=
  match v with
  | PyFloat _ => []
  | Array0 _ => []
  | Array1 xs => [length xs]
  end.

Definition out_shape {A : Type} (o : out A) : list nat :=
  match o with
  | Scalar _ => []
  | Array vs => [length vs]
  end.

(** [xi = (-1 + 1j * np.sqrt(3)) / 2] *)
Definition xi : C := mkC (-1 / 2) (sqrt 3 / 2).

Section KerrDetuning.
Variables coupling_loss internal_loss KXin : R.
Variable choose : list (list fval) -> list fval.

(** Lines 39-44, at one point of the sweep. *)
Definition coef_b (x : R) : R := -2 * x.
Definition coef_c (x : R) : R :=
  ((coupling_loss + internal_loss) / 2) ^ 2 + x ^ 2.
Definition coef_d : R := - KXin * coupling_loss.
Definition delta0_of (b c : R) : R := b ^ 2 - 3 * c.
Definition delta1_of (b c : R) : R := 2 * b ^ 3 - 9 * b * c + 27 * coef_d.
Definition delta_of (d0 d1 : R) : R := (4 * d0 ^ 3 - d1 ^ 2) / 27.

(** Line 51: [np.cbrt((delta1 + np.sqrt(delta1 ** 2 - 4 * delta0 ** 3)) / 2)] *)
Definition cc_real (d1 d0 : R) : fval :=
  np_cbrt ((Some d1 +! np_sqrt (Some (d1 ^ 2 - 4 * d0 ^ 3))) /! Some 2).

(** Line 53: [np.real(-(b + cc + delta0 / cc) / 3)] *)
Definition root_real (b : R) (cc : fval) (d0 : R) : fval :=
  fneg (Some b +! cc +! Some d0 /! cc) /! Some 3.

(** Line 58: [-b / 3] *)
Definition root_triple (b : R) : fval := Some (- b / 3).

(** Lines 62-64 *)
Definition double_root_of (b c d0 : R) : fval :=
  Some (9 * coef_d - b * c) /! Some (2 * d0).
Definition simple_root_of (b c d0 : R) : fval :=
  Some (4 * b * c - 9 * coef_d - b ^ 3) /! Some d0.

(** Lines 69-71: the complex cube root
    [((delta1 + np.sqrt((delta1 ** 2 - 4 * delta0 ** 3).astype(np.complex))) / 2) ** (1 / 3)],
    where [np.complex] is Python's [complex] in the numpy the code is
    written for. *)
Definition cc_complex (d1 d0 : R) : C :=
  Cpow (Cscale (/ 2) (Cadd (of_real d1)
                           (Csqrt (of_real (d1 ^ 2 - 4 * d0 ^ 3)))))
       (1 / 3).

(** Lines 73-78: [np.real(-1 / 3 * (b + w * cc + delta0 / (w * cc)))] for
    [w] one of [1], [xi], [xi ** 2]. *)
Definition root_complex (w : C) (b : R) (cc : C) (d0 : R) : fval :=
  creal (cmul (Some (of_real (-1 / 3)))
              (cadd (Some (Cadd (of_real b) (Cmul w cc)))
                    (Cdiv (of_real d0) (Cmul w cc)))).

Definition x0_of (b : R) (cc : C) (d0 : R) : fval :=
  creal (cmul (Some (of_real (-1 / 3)))
              (cadd (Some (Cadd (of_real b) cc)) (Cdiv (of_real d0) cc))).
Definition x1_of : R -> C -> R -> fval := root_complex xi.
Definition x2_of : R -> C -> R -> fval := root_complex (Cmul xi xi).

(** Lines 38-79 on a 1-D array. *)
Definition kerr_roots (detuning : list R) : result (list fval) :=
  let roots := repeat (Some 0) (length detuning) in
  let b := map coef_b detuning in
  let c := map coef_c detuning in
  let delta0 := zip_with delta0_of b c in
  let delta1 := zip_with delta1_of b c in
  let delta := zip_with delta_of delta0 delta1 in
  let three_distinct_real := map (fun x => Rgtb x 0) delta in
  let multiple_real := map (fun x => Reqb x 0) delta in
  let one_real := map (fun x => Rltb x 0) delta in
  let cc_one_real :=
    zip_with cc_real (select one_real delta1) (select one_real delta0) in
  roots <- (if any one_real then
              setmask roots one_real
                (zip_with3 root_real (select one_real b) cc_one_real
                           (select one_real delta0))
            else Ok roots) ;;
  let triple :=
    zip_with andb multiple_real (map (fun x => Reqb x 0) delta0) in
  roots <- (if any triple then
              setmask roots triple (map root_triple (select triple b))
            else Ok roots) ;;
  let double_and_simple :=
    zip_with andb multiple_real (map (fun x => Rneqb x 0) delta0) in
  roots <- (if any double_and_simple then
              let double_root :=
                zip_with3 double_root_of (select double_and_simple b)
                          (select double_and_simple c)
                          (select double_and_simple delta0) in
              let simple_root :=
                zip_with3 simple_root_of (select double_and_simple b)
                          (select double_and_simple c)
                          (select double_and_simple delta0) in
              setmask roots double_and_simple
                      (choose [double_root; simple_root])
            else Ok roots) ;;
  roots <- (if any three_distinct_real then
              let cc_three_distinct_real :=
                zip_with cc_complex (select three_distinct_real delta1)
                         (select three_distinct_real delta0) in
              let x0 := zip_with3 x0_of (select three_distinct_real b)
                                  cc_three_distinct_real
                                  (select three_distinct_real delta0) in
              let x1 := zip_with3 x1_of (select three_distinct_real b)
                                  cc_three_distinct_real
                                  (select three_distinct_real delta0) in
              let x2 := zip_with3 x2_of (select three_distinct_real b)
                                  cc_three_distinct_real
                                  (select three_distinct_real delta0) in
              setmask roots three_distinct_real (choose [x0; x1; x2])
            else Ok roots) ;;
  Ok roots.

(** [kerr_detuning], lines 30-84.  The first component is the caller's
    [detuning] object as the call leaves it: a scalar is rebound locally
    (line 34), a zero-dimensional array has its [shape] assigned in place
    (line 37) and so is the one-entry 1-D array afterwards. *)
Definition kerr_detuning (detuning : value) : value * result (out fval) :=
  match detuning with
  | PyFloat x =>
      (PyFloat x,
       roots <- kerr_roots [x] ;; Ok (Scalar (hd None roots)))
  | Array0 x =>
      (Array1 [x],
       roots <- kerr_roots [x] ;; Ok (Scalar (hd None roots)))
  | Array1 xs =>
      (Array1 xs,
       roots <- kerr_roots xs ;; Ok (Array roots))
  end.

End KerrDetuning.

(** Line 88: [3 ** (-3 / 2) * (internal_loss + coupling_loss) ** 3 / coupling_loss] *)
Definition kerr_detuning_at_bifurcation (coupling_loss internal_loss : R)
  : fval :=
  Some (Rpower 3 (-3 / 2) * (internal_loss + coupling_loss) ^ 3)
  /! Some coupling_loss.

(** *** Reading the code point by point *)

(** The polynomial whose root is sought, [y^3 + b y^2 + c y + d]. *)
Definition cubic (b c d r : R) : R := r ^ 3 + b * r ^ 2 + c * r + d.

(** The three masks of lines 46-48 and the split of line 56 assign every
    point to exactly one branch. *)
Inductive root_case : Type :=
| OneReal | Triple | DoubleAndSimple | ThreeDistinctReal.

Definition classify (delta delta0 : R) : root_case :=
  if Rlt_dec delta 0 then OneReal
  else if Rlt_dec 0 delta then ThreeDistinctReal
  else if Req_dec_T delta0 0 then Triple
  else DoubleAndSimple.

Section Pointwise.
Variables coupling_loss internal_loss KXin : R.

Definition delta0_at (x : R) : R :=
  delta0_of (coef_b x) (coef_c coupling_loss internal_loss x).
Definition delta1_at (x : R) : R :=
  delta1_of coupling_loss KXin (coef_b x)
            (coef_c coupling_loss internal_loss x).
Definition delta_at (x : R) : R := delta_of (delta0_at x) (delta1_at x).

(** The candidate roots the code computes at detuning [x]. *)
Definition candidates (x : R) : list fval :=
  let b := coef_b x in
  let c := coef_c coupling_loss internal_loss x in
  let d0 := delta0_at x in
  let d1 := delta1_at x in
  match classify (delta_at x) d0 with
  | OneReal => [root_real b (cc_real d1 d0) d0]
  | Triple => [root_triple b]
  | DoubleAndSimple =>
      [double_root_of coupling_loss KXin b c d0;
       simple_root_of coupling_loss KXin b c d0]
  | ThreeDistinctReal =>
      let cc := cc_complex d1 d0 in
      [x0_of b cc d0; x1_of b cc d0; x2_of b cc d0]
  end.

(** [r] is what ends up in [roots] at a point of detuning [x], for a
    tie-break function of contract [CS]. *)
Definition chosen (CS : list fval -> fval -> Prop) (x : R) (r : fval)
  : Prop :=
  match classify (delta_at x) (delta0_at x) with
  | OneReal | Triple => [r] = candidates x
  | _ => CS (candidates x) r
  end.

(** The root written by the one-real-root branch. *)
Definition one_real_at (x : R) : fval :=
  root_real (coef_b x) (cc_real (delta1_at x) (delta0_at x)) (delta0_at x).

(** The points at which the cube root of line 51 is zero. *)
Definition degenerate (x : R) : Prop := delta0_at x = 0 /\ delta1_at x < 0.

(** The points with more than one distinct real root. *)
Definition multiple_roots (x : R) : Prop :=
  (delta_at x = 0 /\ delta0_at x <> 0) \/ 0 < delta_at x.

(** Line 51 adds [delta1] to the square root of
    [delta1 ** 2 - 4 * delta0 ** 3].  For [delta1 < 0] the two nearly cancel
    when [4 |delta0|^3] is small against [delta1^2]: in binary64 what is
    left is rounding noise, and exactly zero once [4 |delta0|^3] falls below
    the spacing of the doubles at [delta1^2], where line 53 divides by zero
    although [delta0] is not zero.  A detuning is well conditioned when it
    is clear of this zone, by the margin [cancellation_margin]. *)
Definition cancellation_margin : R := / 1000000.

Definition well_conditioned (x : R) : Prop :=
  0 <= delta1_at x
  \/ cancellation_margin * delta1_at x ^ 2 <= 4 * Rabs (delta0_at x) ^ 3.
End Pointwise.

End Nonlinear.

(* ===================================================================== *)
(** ** [resonator/shunt.py] *)

Module Shunt.
Import Nonlinear.

(** *** The models *)

(** [1j] *)
Definition Ci : C := mkC 0 1.

(** [shunt], lines 45-48, at one frequency. *)
Definition shunt_at (resonance_frequency internal_loss coupling_loss
                     asymmetry frequency : R) : cval :=
  let detuning := Some frequency /! Some resonance_frequency -! Some 1 in
  csub (Some (of_real 1))
       (cdiv (Some (Cadd (of_real 1) (Cmul Ci (of_real asymmetry))))
             (cadd (Some (of_real 1))
                   (cdiv (cadd (Some (of_real internal_loss))
                               (cmul (Some (Cscale 2 Ci)) (cof detuning)))
                         (Some (of_real coupling_loss))))).

(** [shunt] on what lmfit passes as [frequency]: numpy arithmetic works
    entry by entry, and on a zero-dimensional array yields a scalar. *)
Definition shunt (frequency : value)
           (resonance_frequency internal_loss coupling_loss asymmetry : R)
  : out cval :=
  let f := shunt_at resonance_frequency internal_loss coupling_loss asymmetry in
  match frequency with
  | PyFloat x => Scalar (f x)
  | Array0 x => Scalar (f x)
  | Array1 xs => Array (map f xs)
  end.

(** Lines 71-72 at one frequency, given the detuning and the root returned
    at that point. *)
Definition nonlinear_at (internal_loss coupling_loss asymmetry : R)
           (detuning : R) (kerr : fval) : cval :=
  csub (Some (of_real 1))
       (cdiv (Some (Cadd (of_real 1) (Cmul Ci (of_real asymmetry))))
             (cadd (Some (of_real 1))
                   (cdiv (cadd (Some (of_real internal_loss))
                               (cmul (Some (Cscale 2 Ci))
                                     (cof (Some detuning -! kerr))))
                         (Some (of_real coupling_loss))))).

(** [shunt_nonlinear], lines 67-72, with [self.choose] as a parameter.
    Line 68 makes a fresh [detuning] object (a scalar when [frequency] is a
    scalar or zero-dimensional), which is what [kerr_detuning] receives.
    With [resonance_frequency = 0] line 68 divides by zero at every
    frequency and no entry of the result is a finite number. *)
Definition shunt_nonlinear (choose : list (list fval) -> list fval)
           (frequency : value)
           (resonance_frequency internal_loss coupling_loss asymmetry KXin : R)
  : result (out cval) :=
  if Req_dec_T resonance_frequency 0 then
    Ok (match frequency with
        | PyFloat _ | Array0 _ => Scalar None
        | Array1 xs => Array (map (fun _ => None) xs)
        end)
  else
    let det := fun f => f / resonance_frequency - 1 in
    let detuning :=
      match frequency with
      | PyFloat x | Array0 x => PyFloat (det x)
      | Array1 xs => Array1 (map det xs)
      end in
    kerr <- snd (kerr_detuning coupling_loss internal_loss KXin choose
                               detuning) ;;
    let g := nonlinear_at internal_loss coupling_loss asymmetry in
    match detuning, kerr with
    | PyFloat x, Scalar k => Ok (Scalar (g x k))
    | Array1 xs, Array ks => Ok (Array (zip_with g xs ks))
    | _, _ => Raise ValueError   (* not reached: the kinds agree *)
    end.

(** *** The fitters *)

(** [ShuntFitter.invert], lines 110-114, at one scattering value;
    [self.coupling_loss] and [self.asymmetry] are the fitted parameters. *)
Definition invert_at (coupling_loss asymmetry : R) (scattering_data : cval)
  : fval * fval :=
  let z :=
    cmul (Some (of_real coupling_loss))
         (csub (cdiv (Some (Cadd (of_real 1) (Cmul Ci (of_real asymmetry))))
                     (csub (Some (of_real 1)) scattering_data))
               (Some (of_real 1))) in
  let detuning := cimag z /! Some 2 in
  let internal_loss := creal z in
  (detuning, internal_loss).

Definition invert (coupling_loss asymmetry : R) (scattering_data : out cval)
  : out fval * out fval :=
  let f := invert_at coupling_loss asymmetry in
  match scattering_data with
  | Scalar s => (Scalar (fst (f s)), Scalar (snd (f s)))
  | Array ss => (Array (map (fun s => fst (f s)) ss),
                 Array (map (fun s => snd (f s)) ss))
  end.

(** [ShuntNonlinearFitter.invert], lines 129-131: the body is [pass], so
    the call returns Python's [None] (here the [None] of [option]). *)
Definition nonlinear_invert (scattering_data : out cval)
  : result (option (out fval * out fval)) :=
  Ok None.

(** *** The parameter guesser *)

(** [np.argmin] and [np.argmax]: the first index of an extreme entry. *)
Fixpoint argmin_from (best : R) (besti i : nat) (l : list R) : nat :=
  match l with
  | [] => besti
  | x :: xs => if Rlt_dec x best then argmin_from x i (S i) xs
               else argmin_from best besti (S i) xs
  end.

Fixpoint argmax_from (best : R) (besti i : nat) (l : list R) : nat :=
  match l with
  | [] => besti
  | x :: xs => if Rlt_dec best x then argmax_from x i (S i) xs
               else argmax_from best besti (S i) xs
  end.

Definition argmin (l : list R) : result nat :=
  match l with
  | [] => Raise ValueError
  | x :: xs => Ok (argmin_from x 0 1 xs)
  end.

Definition argmax (l : list R) : result nat :=
  match l with
  | [] => Raise ValueError
  | x :: xs => Ok (argmax_from x 0 1 xs)
  end.

(** [np.min] of a 1-D array. *)
Definition amin (l : list R) : result R :=
  match l with
  | [] => Raise ValueError
  | x :: xs => Ok (fold_left Rmin xs x)
  end.

(** [a[i]] for a non-negative index. *)
Definition index (a : list R) (i : nat) : result R :=
  match nth_error a i with
  | Some x => Ok x
  | None => Raise IndexError
  end.

(** [np.sum] *)
Definition sum (l : list R) : R := fold_left Rplus l 0.

(** [np.linspace(start, stop, num)] *)
Definition linspace (start stop : R) (num : nat) : list R :=
  match num with
  | O => []
  | S O => [start]
  | _ => map (fun i => start + INR i * ((stop - start) / INR (num - 1)))
             (seq 0 num)
  end.

(** Entry-wise sum, the longer tail kept. *)
Fixpoint padd (a b : list R) : list R :=
  match a, b with
  | [], _ => b
  | _, [] => a
  | x :: xs, y :: ys => (x + y) :: padd xs ys
  end.

(** [np.convolve(a, v, mode='full')]: entry [k] is the sum of the
    [a[j] * v[k - j]]. *)
Fixpoint conv_full (a v : list R) : list R :=
  match a with
  | [] => []
  | x :: a' => padd (map (Rmult x) v) (0 :: conv_full a' v)
  end.

(** [np.convolve(a, v, mode='same')]: the [max(M, N)] central entries of
    the full convolution, which start at entry [(min(M, N) - 1) // 2]. *)
Definition convolve_same (a v : list R) : result (list R) :=
  match a, v with
  | [], _ | _, [] => Raise ValueError
  | _, _ =>
      Ok (firstn (Nat.max (length a) (length v))
                 (skipn ((Nat.min (length a) (length v) - 1) / 2)
                        (conv_full a v)))
  end.

(** [a[width:-width]]; with [width = 0] this is [a[0:0]]. *)
Definition trim (width : nat) (a : list R) : list R :=
  match width with
  | O => []
  | _ => skipn width (firstn (length a - width) a)
  end.

(** The linewidth estimate, lines 17-25. *)
Definition linewidth_of (frequency : list R) (data : list C) : result R :=
  let width := (length frequency / 10)%nat in
  let gaussian := map (fun t => exp (- (t ^ 2))) (linspace (-4) 4 width) in
  let gaussian := map (fun g => g / sum gaussian) gaussian in
  smoothed <- convolve_same gaussian (map Cabs data) ;;
  derivative <- convolve_same [1; -1] smoothed ;;
  imax <- argmax (trim width derivative) ;;
  fhi <- index frequency imax ;;
  imin <- argmin (trim width derivative) ;;
  flo <- index frequency imin ;;
  Ok (fhi - flo).

(** [guess_smooth], lines 14-30.  The divisions of lines 26-29 are float64
    divisions: by zero they give an infinity or [nan], and the function
    goes on with it.  The divisors it computes itself
    ([np.min(np.abs(data))], [1 / ... - 1], [1 + internal_over_coupling])
    are never [-0.0]; a resonance frequency of [-0.0] is not represented. *)
Definition guess_smooth (frequency : list R) (data : list C)
  : result (R * ieee * ieee) :=
  i <- argmin (map Cabs data) ;;
  resonance_frequency <- index frequency i ;;
  linewidth <- linewidth_of frequency data ;;
  let internal_plus_coupling :=
    ieee_div (Finite linewidth) (Finite resonance_frequency) in
  lowest <- amin (map Cabs data) ;;
  let internal_over_coupling :=
    ieee_div (Finite 1)
             (ieee_sub (ieee_div (Finite 1) (Finite lowest)) (Finite 1)) in
  let coupling_loss :=
    ieee_div internal_plus_coupling
             (ieee_add (Finite 1) internal_over_coupling) in
  let internal_loss :=
    ieee_div (ieee_mul internal_plus_coupling internal_over_coupling)
             (ieee_add (Finite 1) internal_over_coupling) in
  Ok (resonance_frequency, coupling_loss, internal_loss).

(** The value of the models in closed form, at detuning [x]. *)
Definition lorentzian (internal_loss coupling_loss asymmetry x : R) : C :=
  let n := (1 + internal_loss / coupling_loss) ^ 2
           + (2 * x / coupling_loss) ^ 2 in
  mkC (1 - ((1 + internal_loss / coupling_loss)
            + asymmetry * (2 * x / coupling_loss)) / n)
      (0 - (asymmetry * (1 + internal_loss / coupling_loss)
            - 2 * x / coupling_loss) / n).



End Shunt.

(* ===================================================================== *)
(** ** [ShuntNonlinear.guess] *)

Module ShuntNonlinear.
Import Shunt.

(** [frequency.max()] *)
Definition amax (l : list R) : result R :=
  match l with
  | [] => Raise ValueError
  | x :: xs => Ok (fold_left Rmax xs x)
  end.

(** What one call [params[name].set(value=..., min=..., max=...)] passes; a
    bound that is not passed stays as lmfit made it. *)
Record setting : Type :=
  { set_value : ieee; set_min : option R; set_max : option R }.

(** [ShuntNonlinear.guess], lines 75-83: the settings made on the
    parameters, in the order of the calls. *)
Definition guess (data : list C) (frequency : list R)
  : result (list (String.string * setting)) :=
  guessed <- guess_smooth frequency data ;;
  let '(resonance_frequency, coupling_loss, internal_loss) := guessed in
  lowest <- amin frequency ;;
  highest <- amax frequency ;;
  Ok [("resonance_frequency"%string,
       {| set_value := Finite resonance_frequency;
          set_min := Some lowest; set_max := Some highest |});
      ("coupling_loss"%string,
       {| set_value := coupling_loss;
          set_min := Some 1e-12; set_max := Some 1 |});
      ("internal_loss"%string,
       {| set_value := internal_loss;
          set_min := Some 1e-12; set_max := Some 1 |});
      ("asymmetry"%string,
       {| set_value := Finite 0; set_min := Some (-10); set_max := Some 10 |});
      ("KXin"%string,
       {| set_value := Finite 0; set_min := None; set_max := None |})].

End ShuntNonlinear.

(* ===================================================================== *)
(** ** Inputs used as examples *)

Module Examples.
Import Shunt.

(** Ten equally spaced frequencies. *)
Definition sweep10 : list R := [1; 2; 3; 4; 5; 6; 7; 8; 9; 10].

(** A dip of depth one half at the fifth point. *)
Definition dip10 : list C :=
  [mkC 1 0; mkC 1 0; mkC 1 0; mkC 1 0; mkC (1 / 2) 0;
   mkC 1 0; mkC 1 0; mkC 1 0; mkC 1 0; mkC 1 0].


(** A dip that reaches zero at the fifth point. *)
Definition zero10 : list C :=
  [mkC 1 0; mkC 1 0; mkC 1 0; mkC 1 0; mkC 0 0;
   mkC 1 0; mkC 1 0; mkC 1 0; mkC 1 0; mkC 1 0].


End Examples.

(* ===================================================================== *)
(** ** The coefficients in IEEE binary64 *)

(** Lines 39-44 and the argument of [np.cbrt] on line 51, on doubles.
    [x ** 2] on an array is [np.square], one rounded product.  [b ** 3] is
    [pow(b, 3)], which need not round like [b * b * b]: it is the parameter
    [b3], and the check below runs over the doubles around [b * b * b].
    [delta0 ** 3] is only needed at [delta0 = 0], where it is [0]. *)
Module Binary64.
Import Floats.

Definition coef_b (detuning : float) : float := (-2 * detuning)%float.
Definition coef_c (coupling_loss internal_loss detuning : float) : float :=
  ((coupling_loss + internal_loss) / 2 * ((coupling_loss + internal_loss) / 2)
   + detuning * detuning)%float.
Definition coef_d (KXin coupling_loss : float) : float :=
  (- KXin * coupling_loss)%float.
Definition delta0_of (b c : float) : float := (b * b - 3 * c)%float.
Definition delta1_of (b3 b c d : float) : float :=
  (2 * b3 - 9 * b * c + 27 * d)%float.
Definition delta_of (d0 d1 : float) : float :=
  ((4 * (d0 * d0 * d0) - d1 * d1) / 27)%float.
Definition cbrt_arg (d0 d1 : float) : float :=
  ((d1 + PrimFloat.sqrt (d1 * d1 - 4 * (d0 * d0 * d0))) / 2)%float.

(** The double nearest to [-sqrt(3)/2], i.e. [-math.sqrt(3) / 2]. *)
Definition detuning : float := (-0x1.bb67ae8584caap-1)%float.

(** The doubles within two units in the last place of [v]. *)
Definition around (v : float) : list float :=
  [next_down (next_down v); next_down v; v; next_up v; next_up (next_up v)].

(** At [coupling_loss = internal_loss = 0.5], [KXin = 0] and the detuning
    above: [delta0] is exactly zero, [delta1] and [delta] are negative (the
    one-real-root branch), the argument of the cube root is zero, and
    [delta0 / cc] is [0 / 0], not a number. *)
Definition degenerate_at (b3 : float) : bool :=
  let b := coef_b detuning in
  let c := coef_c 0.5 0.5 detuning in
  let d := coef_d 0 0.5 in
  let d0 := delta0_of b c in
  let d1 := delta1_of b3 b c d in
  (PrimFloat.eqb d0 0 && PrimFloat.ltb d1 0 && PrimFloat.ltb (delta_of d0 d1) 0
   && PrimFloat.eqb (cbrt_arg d0 d1) 0
   && PrimFloat.is_nan (d0 / cbrt_arg d0 d1))%float.

(** Two detunings beside it, the doubles written [-0.866026] and
    [-0.866025]. *)
Definition detuning_below : float := (-0x1.bb67c286f8ad2p-1)%float.
Definition detuning_above : float := (-0x1.bb67a0f9096bcp-1)%float.

(** At [coupling_loss = internal_loss = 0.5], [KXin = 0] and the detuning
    [x]: [delta0] is not zero, [delta] is negative (the one-real-root
    branch), and yet the sum under the cube root has cancelled to exactly
    zero, so that [delta0 / cc] is infinite. *)
Definition cancels_at (x b3 : float) : bool :=
  let b := coef_b x in
  let c := coef_c 0.5 0.5 x in
  let d := coef_d 0 0.5 in
  let d0 := delta0_of b c in
  let d1 := delta1_of b3 b c d in
  (negb (PrimFloat.eqb d0 0) && PrimFloat.ltb (delta_of d0 d1) 0
   && PrimFloat.eqb (cbrt_arg d0 d1) 0
   && PrimFloat.is_infinity (d0 / cbrt_arg d0 d1))%float.

(** The bifurcation point for [coupling_loss = internal_loss = 0.5]: the
    double [3 ** (-3 / 2)], from which line 88 gets the threshold
    [3 ** (-3 / 2) * 1.0 / 0.5], and the double nearest to [sqrt(3)/2]. *)
Definition pow_3_m32 : float := 0x1.8a2345cc04426p-3%float.
Definition bifurcation_detuning : float := 0x1.bb67ae8584caap-1%float.

(** There the computed [delta0] is zero and the computed [delta] is zero
    up to rounding, below [2^-96] in magnitude. *)
Definition discriminant_vanishes_at (p b3 : float) : bool :=
  let b := coef_b bifurcation_detuning in
  let c := coef_c 0.5 0.5 bifurcation_detuning in
  let d := coef_d (p * 1 / 0.5) 0.5 in
  let d0 := delta0_of b c in
  let d1 := delta1_of b3 b c d in
  (PrimFloat.eqb d0 0
   && PrimFloat.ltb (PrimFloat.abs (delta_of d0 d1)) 0x1p-96)%float.

(** With the very doubles the code computes, [delta] is negative, not zero:
    the point falls into the one-real-root branch, with a zero cube root
    and the quotient [0 / 0]. *)
Definition one_real_branch_at (p b3 : float) : bool :=
  let b := coef_b bifurcation_detuning in
  let c := coef_c 0.5 0.5 bifurcation_detuning in
  let d := coef_d (p * 1 / 0.5) 0.5 in
  let d0 := delta0_of b c in
  let d1 := delta1_of b3 b c d in
  (PrimFloat.eqb d0 0 && PrimFloat.ltb d1 0 && PrimFloat.ltb (delta_of d0 d1) 0
   && PrimFloat.eqb (cbrt_arg d0 d1) 0
   && PrimFloat.is_nan (d0 / cbrt_arg d0 d1))%float.

End Binary64.

(* ===================================================================== *)
(** * Properties *)

Import Nonlinear Shunt Examples.

(** ** Numbers *)

Lemma cbrt_cube x : cbrt x ^ 3 = x.
Proof.
  unfold cbrt. destruct (Rlt_dec 0 x) as [Hp|Hp].
  - rewrite <- (Rpower_pow 3) by (apply exp_pos).
    rewrite Rpower_mult. replace (/ 3 * INR 3) with 1 by (simpl; field).
    apply Rpower_1; assumption.
  - destruct (Rlt_dec x 0) as [Hn|Hn].
    + assert (H : Rpower (- x) (/ 3) ^ 3 = - x).
      { rewrite <- (Rpower_pow 3) by (apply exp_pos).
        rewrite Rpower_mult. replace (/ 3 * INR 3) with 1 by (simpl; field).
        apply Rpower_1; lra. }
      replace ((- Rpower (- x) (/ 3)) ^ 3) with (- (Rpower (- x) (/ 3) ^ 3)) by ring.
      rewrite H; ring.
    + assert (x = 0) by lra. subst; ring.
Qed.

Lemma cbrt_eq_0 x : cbrt x = 0 -> x = 0.
Proof. intros H. rewrite <- (cbrt_cube x), H. ring. Qed.

Lemma cbrt_0 : cbrt 0 = 0.
Proof. unfold cbrt. destruct (Rlt_dec 0 0); [lra|]. reflexivity. Qed.

Lemma fdiv_some x y : y <> 0 -> Some x /! Some y = Some (x / y).
Proof. intros H. unfold fdiv. destruct (Req_dec_T y 0); [contradiction | reflexivity]. Qed.

Lemma fdiv_zero x : Some x /! Some 0 = None.
Proof. unfold fdiv. destruct (Req_dec_T 0 0); [reflexivity | congruence]. Qed.

Lemma fdiv_none_r a : a /! None = None.
Proof. destruct a; reflexivity. Qed.

Lemma np_sqrt_some x : 0 <= x -> np_sqrt (Some x) = Some (sqrt x).
Proof. intros H. unfold np_sqrt. destruct (Rlt_dec x 0); [lra | reflexivity]. Qed.

Lemma sq_pos x : x <> 0 -> 0 < x ^ 2.
Proof. intros H. destruct (Rtotal_order x 0) as [|[|]]; [nra | contradiction | nra]. Qed.

Lemma sqrt3_sq : sqrt 3 * sqrt 3 = 3.
Proof. apply sqrt_sqrt; lra. Qed.

Lemma sqrt3_pos : 0 < sqrt 3.
Proof. apply sqrt_lt_R0; lra. Qed.

Lemma cos_3a x : cos (3 * x) = cos x ^ 3 - 3 * cos x * sin x ^ 2.
Proof.
  replace (3 * x) with (2 * x + x) by ring.
  rewrite cos_plus, cos_2a, sin_2a. ring.
Qed.

Lemma sqrt_cube x : 0 < x -> sqrt (x ^ 3) = x * sqrt x.
Proof.
  intros H. replace (x ^ 3) with (Rsqr x * x) by (unfold Rsqr; ring).
  rewrite sqrt_mult by (try apply Rle_0_sqr; lra).
  rewrite sqrt_Rsqr by lra. reflexivity.
Qed.

Lemma Rpower_third_sqrt_cube x : 0 < x -> Rpower (sqrt (x ^ 3)) (1 / 3) = sqrt x.
Proof.
  intros H.
  assert (H3 : 0 < x ^ 3) by (apply pow_lt; assumption).
  rewrite <- (Rpower_sqrt (x ^ 3)) by assumption.
  rewrite <- (Rpower_pow 3 x) by assumption.
  rewrite !Rpower_mult.
  replace (INR 3 * (/ 2 * (1 / 3))) with (/ 2) by (simpl; field).
  apply Rpower_sqrt; assumption.
Qed.

Lemma Rpower_3_m32 : Rpower 3 (-3 / 2) = / (3 * sqrt 3).
Proof.
  replace (-3 / 2) with (- (1 + / 2)) by field.
  rewrite Rpower_Ropp, Rpower_plus, Rpower_1, Rpower_sqrt by lra.
  reflexivity.
Qed.

(** ** Complex numbers *)

Lemma C_eq z w : re z = re w -> im z = im w -> z = w.
Proof. destruct z, w; simpl; intros -> ->; reflexivity. Qed.

Lemma Cdiv_some z w :
  Cnorm2 w <> 0 ->
  Cdiv z w = Some (mkC ((re z * re w + im z * im w) / Cnorm2 w)
                       ((im z * re w - re z * im w) / Cnorm2 w)).
Proof. intros H. unfold Cdiv. destruct (Req_dec_T (Cnorm2 w) 0); [contradiction | reflexivity]. Qed.

Lemma Cdiv_real z r :
  r <> 0 -> Cdiv z (of_real r) = Some (mkC (re z / r) (im z / r)).
Proof.
  intros H. unfold Cdiv, Cnorm2, of_real; cbn [re im].
  destruct (Req_dec_T (r * r + 0 * 0) 0) as [E|_]; [exfalso; nra |].
  f_equal. apply C_eq; cbn [re im]; field; assumption.
Qed.

Lemma Cdiv_eq z w q :
  Cnorm2 w <> 0 -> Cmul q w = z -> Cdiv z w = Some q.
Proof.
  intros H <-. rewrite Cdiv_some by assumption. f_equal.
  unfold Cnorm2 in *. apply C_eq; unfold Cmul; cbn [re im]; field; assumption.
Qed.

Lemma Cabs_real v : 0 <= v -> Cabs (mkC v 0) = v.
Proof.
  intros H. unfold Cabs, Cnorm2; cbn [re im].
  replace (v * v + 0 * 0) with (Rsqr v) by (unfold Rsqr; ring).
  apply sqrt_Rsqr; assumption.
Qed.

(** ** Arrays and tie-break functions *)

Section ArrayFacts.
Context {A B D E X : Type}.

Lemma zip_with_map (f : A -> B -> D) (g : X -> A) (h : X -> B) xs :
  zip_with f (map g xs) (map h xs) = map (fun x => f (g x) (h x)) xs.
Proof. induction xs as [|x xs IH]; simpl; [reflexivity | now rewrite IH]. Qed.

Lemma zip_with3_map (f : A -> B -> D -> E) (g : X -> A) (h : X -> B)
      (k : X -> D) xs :
  zip_with3 f (map g xs) (map h xs) (map k xs)
  = map (fun x => f (g x) (h x) (k x)) xs.
Proof. induction xs as [|x xs IH]; simpl; [reflexivity | now rewrite IH]. Qed.

Lemma select_map (m : X -> bool) (g : X -> A) xs :
  select (map m xs) (map g xs) = map g (select (map m xs) xs).
Proof.
  induction xs as [|x xs IH]; simpl; [reflexivity |].
  destruct (m x); simpl; now rewrite IH.
Qed.

Lemma select_length (m : X -> bool) xs :
  length (select (map m xs) xs) = count (map m xs).
Proof.
  induction xs as [|x xs IH]; simpl; [reflexivity |].
  destruct (m x); simpl; now rewrite IH.
Qed.

Lemma any_false (m : X -> bool) xs :
  any (map m xs) = false -> Forall (fun x => m x = false) xs.
Proof.
  unfold any. induction xs as [|x xs IH]; simpl; intros H; constructor.
  - now destruct (m x).
  - apply IH. now destruct (m x).
Qed.

Lemma put_Forall2 (m : X -> bool) (P Q : X -> A -> Prop) xs roots vs :
  Forall2 Q xs roots ->
  Forall2 P (select (map m xs) xs) vs ->
  Forall2 (fun x r => if m x then P x r else Q x r) xs
          (put roots (map m xs) vs).
Proof.
  intros HQ. revert vs. induction HQ as [|x r xs roots Hx HQ IH]; intros vs HP.
  - constructor.
  - simpl in *. destruct (m x) eqn:Hm.
    + inversion HP; subst. constructor; [now rewrite Hm | now apply IH].
    + constructor; [now rewrite Hm | now apply IH].
Qed.

Lemma masked_step (m : X -> bool) (P Q : X -> A -> Prop) xs roots vs :
  Forall2 Q xs roots ->
  Forall2 P (select (map m xs) xs) vs ->
  exists roots',
    (if any (map m xs) then setmask roots (map m xs) vs else Ok roots)
    = Ok roots'
    /\ Forall2 (fun x r => if m x then P x r else Q x r) xs roots'.
Proof.
  intros HQ HP. destruct (any (map m xs)) eqn:Hany.
  - exists (put roots (map m xs) vs). split; [| now apply put_Forall2].
    unfold setmask. rewrite <- (Forall2_length HP), select_length.
    now rewrite Nat.eqb_refl.
  - exists roots. split; [reflexivity |].
    apply any_false in Hany. clear HP.
    induction HQ as [|x r xs roots Hx HQ IH];
      [constructor | inversion Hany as [|? ? Hm Hrest]; subst].
    constructor; [now rewrite Hm | now apply IH].
Qed.
End ArrayFacts.

Lemma Forall2_map_l {A B X} (P : B -> A -> Prop) (g : X -> B) xs vs :
  Forall2 P (map g xs) vs <-> Forall2 (fun x v => P (g x) v) xs vs.
Proof.
  split.
  - revert vs. induction xs; intros vs H; inversion H; subst; constructor; auto.
  - induction 1; simpl; constructor; auto.
Qed.

Lemma columns2 {X} (g1 g2 : X -> fval) pts :
  columns [map g1 pts; map g2 pts] = map (fun p => [g1 p; g2 p]) pts.
Proof. simpl. induction pts; simpl; [reflexivity | now rewrite IHpts]. Qed.

Lemma columns3 {X} (g1 g2 g3 : X -> fval) pts :
  columns [map g1 pts; map g2 pts; map g3 pts]
  = map (fun p => [g1 p; g2 p; g3 p]) pts.
Proof. simpl. induction pts; simpl; [reflexivity | now rewrite IHpts]. Qed.

Lemma columns_cons2 f (r r' : list fval) rs :
  Forall2 (fun col' col => exists a b rest, col = a :: b :: rest /\ col' = f a b :: rest)
          (columns (zip_with f r r' :: rs)) (columns (r :: r' :: rs)).
Proof.
  destruct rs as [|r'' rs].
  - simpl. revert r'. induction r as [|a r IH]; intros [|b r']; simpl; try constructor.
    + now exists a, b, [].
    + apply IH.
  - change (columns (zip_with f r r' :: r'' :: rs))
      with (zip_with cons (zip_with f r r') (columns (r'' :: rs))).
    change (columns (r :: r' :: r'' :: rs))
      with (zip_with cons r (zip_with cons r' (columns (r'' :: rs)))).
    generalize (columns (r'' :: rs)) as cs.
    revert r'. induction r as [|a r IH]; intros [|b r'] [|c cs]; simpl; try constructor.
    + now exists a, b, c.
    + apply IH.
Qed.

Lemma reduce_axis0_folds f : choose_spec (folds f) (reduce_axis0 f).
Proof.
  intros rows. destruct rows as [|r rs]; [constructor |].
  unfold reduce_axis0. revert r. induction rs as [|r' rs IH]; intros r.
  - simpl. induction r; simpl; constructor; [reflexivity | assumption].
  - change (fold_left (zip_with f) (r' :: rs) r)
      with (fold_left (zip_with f) rs (zip_with f r r')).
    specialize (IH (zip_with f r r')).
    pose proof (columns_cons2 f r r' rs) as H.
    revert IH H. generalize (fold_left (zip_with f) rs (zip_with f r r')) as vs.
    generalize (columns (zip_with f r r' :: rs)) as c1.
    generalize (columns (r :: r' :: rs)) as c2.
    intros c2 c1 vs H1 H2. revert vs H1.
    induction H2 as [|col' col c1 c2 (a & b & rest & -> & ->) H2 IH2]; intros vs H1.
    + inversion H1; constructor.
    + inversion H1; subst. constructor; [| now apply IH2].
      simpl in *. assumption.
Qed.

Lemma fmin_pick a b : fmin a b = a \/ fmin a b = b.
Proof.
  destruct a as [x|], b as [y|]; simpl; auto.
  unfold Rmin. destruct (Rle_dec x y); auto.
Qed.

Lemma fmax_pick a b : fmax a b = a \/ fmax a b = b.
Proof.
  destruct a as [x|], b as [y|]; simpl; auto.
  unfold Rmax. destruct (Rle_dec x y); auto.
Qed.

Lemma folds_picks f col v :
  (forall a b, f a b = a \/ f a b = b) -> folds f col v -> picks col v.
Proof.
  intros Hf. unfold folds, picks. destruct col as [|a rest]; [tauto |].
  intros ->. revert a. induction rest as [|b rest IH]; intros a; simpl.
  - now left.
  - destruct (IH (f a b)) as [H|H].
    + destruct (Hf a b) as [E|E]; [left | right; left];
        rewrite <- H; symmetry; exact E.
    + right; right; exact H.
Qed.

Lemma choose_spec_weaken (CS CS' : list fval -> fval -> Prop) choose :
  (forall col v, CS col v -> CS' col v) ->
  choose_spec CS choose -> choose_spec CS' choose.
Proof.
  intros H Hc rows. specialize (Hc rows).
  induction Hc; constructor; auto.
Qed.

(** [np.min] and [np.max] return one of the candidates. *)
Lemma np_min_picks : choose_spec picks np_min.
Proof.
  apply (choose_spec_weaken (folds fmin)).
  - intros col v. apply folds_picks. apply fmin_pick.
  - apply reduce_axis0_folds.
Qed.

Lemma np_max_picks : choose_spec picks np_max.
Proof.
  apply (choose_spec_weaken (folds fmax)).
  - intros col v. apply folds_picks. apply fmax_pick.
  - apply reduce_axis0_folds.
Qed.

Lemma bind_exists {A B} (M : result A) (K : A -> result B)
      (Phi : A -> Prop) (Psi : B -> Prop) :
  (exists a, M = Ok a /\ Phi a) ->
  (forall a, Phi a -> exists b, K a = Ok b /\ Psi b) ->
  exists b, bind M K = Ok b /\ Psi b.
Proof. intros (a & -> & Ha) HK. simpl. now apply HK. Qed.

Lemma Forall2_map_self {A B} (g : A -> B) l :
  Forall2 (fun x r => r = g x) l (map g l).
Proof. induction l; simpl; constructor; auto. Qed.

Lemma Forall2_repeat {A B} (y : B) (l : list A) :
  Forall2 (fun _ r => r = y) l (repeat y (length l)).
Proof. induction l; simpl; constructor; auto. Qed.

Lemma Forall2_impl {A B} (P Q : A -> B -> Prop) l l' :
  (forall x y, P x y -> Q x y) -> Forall2 P l l' -> Forall2 Q l l'.
Proof. intros H. induction 1; constructor; auto. Qed.

Lemma masked_skip {A X} (m : X -> bool) xs (M : result (list A)) roots :
  Forall (fun x => m x = false) xs ->
  (if any (map m xs) then M else Ok roots) = Ok roots.
Proof.
  intros H. replace (any (map m xs)) with false; [reflexivity |].
  unfold any. induction H as [|x xs Hx H IH]; simpl; [reflexivity |].
  now rewrite Hx.
Qed.

Lemma Forall2_eq_map {A B} (g : A -> B) l l' :
  Forall2 (fun x r => r = g x) l l' -> l' = map g l.
Proof. induction 1; simpl; congruence. Qed.

Lemma Forall2_Forall_l {A B} (P : A -> Prop) (Q R : A -> B -> Prop) l l' :
  Forall P l -> Forall2 Q l l' ->
  (forall x y, P x -> Q x y -> R x y) -> Forall2 R l l'.
Proof.
  intros HP HQ H. induction HQ; constructor; inversion HP; subst; auto.
Qed.

Lemma Forall2_nth_error {A B} (P : A -> B -> Prop) l l' i x :
  Forall2 P l l' -> nth_error l i = Some x ->
  exists y, nth_error l' i = Some y /\ P x y.
Proof.
  intros H. revert i. induction H as [|a b l l' Hab H IH]; intros [|i] Hi;
    simpl in *; try discriminate.
  - inversion Hi; subst. eauto.
  - eauto.
Qed.


Section Sound.
Variables coupling_loss internal_loss KXin : R.
Variable choose : list (list fval) -> list fval.
Variable CS : list fval -> fval -> Prop.
Hypothesis choose_ok : choose_spec CS choose.

Lemma choose2 {X} (g1 g2 : X -> fval) pts :
  Forall2 (fun p v => CS [g1 p; g2 p] v) pts
          (choose [map g1 pts; map g2 pts]).
Proof.
  apply (proj1 (Forall2_map_l CS (fun p => [g1 p; g2 p]) pts _)).
  rewrite <- columns2. apply choose_ok.
Qed.

Lemma choose3 {X} (g1 g2 g3 : X -> fval) pts :
  Forall2 (fun p v => CS [g1 p; g2 p; g3 p] v) pts
          (choose [map g1 pts; map g2 pts; map g3 pts]).
Proof.
  apply (proj1 (Forall2_map_l CS (fun p => [g1 p; g2 p; g3 p]) pts _)).
  rewrite <- columns3. apply choose_ok.
Qed.

Lemma kerr_roots_chosen xs :
  exists rs, kerr_roots coupling_loss internal_loss KXin choose xs = Ok rs
             /\ Forall2 (chosen coupling_loss internal_loss KXin CS) xs rs.
Proof.
  unfold kerr_roots.
  rewrite !zip_with_map, !map_map, !zip_with_map.
  rewrite !select_map, !map_map, !zip_with_map, !zip_with3_map.
  eapply bind_exists.
  { eapply masked_step; [apply Forall2_repeat | apply Forall2_map_self]. }
  intros r1 H1.
  eapply bind_exists.
  { eapply masked_step; [exact H1 | apply Forall2_map_self]. }
  intros r2 H2.
  eapply bind_exists.
  { eapply masked_step; [exact H2 | apply choose2]. }
  intros r3 H3.
  eapply bind_exists.
  { eapply masked_step; [exact H3 | apply choose3]. }
  intros r4 H4.
  exists r4. split; [reflexivity |].
  revert H4. apply Forall2_impl. intros x r.
  unfold chosen, candidates, classify, delta_at, delta0_at, delta1_at,
    coef_b, coef_c, Rgtb, Rltb, Reqb, Rneqb, Reqb.
  set (D0 := delta0_of _ _). set (D1 := delta1_of _ _ _ _).
  destruct (Rlt_dec (delta_of D0 D1) 0) as [Hn|Hn];
    destruct (Rlt_dec 0 (delta_of D0 D1)) as [Hp|Hp]; try lra;
    destruct (Req_dec_T (delta_of D0 D1) 0) as [Hz|Hz]; try lra;
    destruct (Req_dec_T D0 0) as [H0|H0]; simpl; try congruence; auto.
Qed.
End Sound.

(** ** Cardano's identities *)

Lemma cardano_sum b c d E C :
  C * E = b ^ 2 - 3 * c ->
  C ^ 3 + E ^ 3 = 2 * b ^ 3 - 9 * b * c + 27 * d ->
  cubic b c d (- (b + C + E) / 3) = 0.
Proof.
  intros HCE HE. unfold cubic.
  assert (Hc : c = (b ^ 2 - C * E) / 3) by lra.
  assert (Hd : d = (C ^ 3 + E ^ 3 - 2 * b ^ 3 + 9 * b * c) / 27) by lra.
  rewrite Hd, Hc. field.
Qed.

Lemma cardano_real b c d w C :
  w ^ 2 = (2 * b ^ 3 - 9 * b * c + 27 * d) ^ 2 - 4 * (b ^ 2 - 3 * c) ^ 3 ->
  C ^ 3 = ((2 * b ^ 3 - 9 * b * c + 27 * d) + w) / 2 ->
  C <> 0 ->
  cubic b c d (- (b + C + (b ^ 2 - 3 * c) / C) / 3) = 0.
Proof.
  intros Hw HC HC0. apply cardano_sum.
  - field; assumption.
  - set (d0 := b ^ 2 - 3 * c) in *. set (d1 := 2 * b ^ 3 - 9 * b * c + 27 * d) in *.
    assert (H6 : C ^ 3 * C ^ 3 - d1 * C ^ 3 + d0 ^ 3 = 0) by (rewrite HC; nra).
    apply Rmult_eq_reg_l with (C ^ 3); [| apply pow_nonzero; assumption].
    replace (C ^ 3 * (C ^ 3 + (d0 / C) ^ 3)) with (C ^ 3 * C ^ 3 + d0 ^ 3) by (field; assumption).
    lra.
Qed.

Lemma cardano_trig b c d u v :
  u ^ 2 + v ^ 2 = b ^ 2 - 3 * c ->
  2 * (u ^ 3 - 3 * u * v ^ 2) = 2 * b ^ 3 - 9 * b * c + 27 * d ->
  cubic b c d (- (b + 2 * u) / 3) = 0.
Proof.
  intros H1 H2. unfold cubic.
  assert (Hc : c = (b ^ 2 - u ^ 2 - v ^ 2) / 3) by lra.
  assert (Hd : d = (2 * (u ^ 3 - 3 * u * v ^ 2) - 2 * b ^ 3 + 9 * b * c) / 27) by lra.
  rewrite Hd, Hc. field.
Qed.

(** ** The four branches, point by point *)

Section Cases.
Variables coupling_loss KXin : R.
Variables b c : R.
Let d := coef_d coupling_loss KXin.
Let d0 := delta0_of b c.
Let d1 := delta1_of coupling_loss KXin b c.

Lemma cc_real_some :
  delta_of d0 d1 <= 0 ->
  cc_real d1 d0 = Some (cbrt ((d1 + sqrt (d1 ^ 2 - 4 * d0 ^ 3)) / 2)).
Proof.
  intros H. unfold cc_real, delta_of in *.
  rewrite np_sqrt_some by lra. unfold fadd, lift2.
  rewrite fdiv_some by lra. reflexivity.
Qed.

Lemma cc_real_zero_iff :
  delta_of d0 d1 <= 0 ->
  (cbrt ((d1 + sqrt (d1 ^ 2 - 4 * d0 ^ 3)) / 2) = 0 <-> d0 = 0 /\ d1 <= 0).
Proof.
  intros H. unfold delta_of in H.
  assert (Hs : 0 <= d1 ^ 2 - 4 * d0 ^ 3) by lra.
  pose proof (sqrt_pos (d1 ^ 2 - 4 * d0 ^ 3)) as Hp.
  pose proof (sqrt_sqrt _ Hs) as Hq.
  split.
  - intros H0. apply cbrt_eq_0 in H0.
    assert (Hw : sqrt (d1 ^ 2 - 4 * d0 ^ 3) = - d1) by lra.
    rewrite Hw in Hq, Hp.
    assert (H3 : d0 ^ 3 = 0) by nra.
    split; [| lra].
    destruct (Req_dec_T d0 0) as [|Hn]; [assumption |].
    exfalso. apply (pow_nonzero d0 3) in Hn. contradiction.
  - intros [H0 H1]. rewrite H0.
    replace (d1 ^ 2 - 4 * 0 ^ 3) with (Rsqr d1) by (unfold Rsqr; ring).
    rewrite sqrt_Rsqr_abs, Rabs_left1 by assumption.
    replace ((d1 + - d1) / 2) with 0 by field. apply cbrt_0.
Qed.

(** One real root: the formula is a root unless the cube root vanishes. *)
Lemma one_real_root :
  delta_of d0 d1 < 0 -> ~ (d0 = 0 /\ d1 < 0) ->
  exists r, root_real b (cc_real d1 d0) d0 = Some r /\ cubic b c d r = 0.
Proof.
  intros H Hne.
  rewrite cc_real_some by lra.
  set (C := cbrt _).
  assert (HC : C <> 0).
  { intros HC. apply cc_real_zero_iff in HC; [| lra].
    destruct HC as [H0 H1]. apply Hne. split; [assumption |].
    destruct (Req_dec_T d1 0) as [Hz|Hz]; [| lra].
    unfold delta_of in H. rewrite H0, Hz in H. lra. }
  exists (- (b + C + d0 / C) / 3). split.
  - unfold root_real. rewrite fdiv_some by assumption.
    unfold fadd, fneg, lift2, lift1, option_map.
    rewrite fdiv_some by lra. reflexivity.
  - unfold delta_of in H.
    apply (cardano_real b c d (sqrt (d1 ^ 2 - 4 * d0 ^ 3)) C).
    + replace (sqrt (d1 ^ 2 - 4 * d0 ^ 3) ^ 2) with
        (sqrt (d1 ^ 2 - 4 * d0 ^ 3) * sqrt (d1 ^ 2 - 4 * d0 ^ 3)) by ring.
      rewrite sqrt_sqrt by lra. reflexivity.
    + unfold C. rewrite cbrt_cube. reflexivity.
    + assumption.
Qed.

(** ... and when it vanishes the quotient [delta0 / cc] is [0 / 0]. *)
Lemma one_real_nan :
  d0 = 0 -> d1 < 0 ->
  delta_of d0 d1 < 0 /\ cc_real d1 d0 = Some 0
  /\ root_real b (cc_real d1 d0) d0 = None.
Proof.
  intros H0 H1.
  assert (H : delta_of d0 d1 < 0) by (unfold delta_of; rewrite H0; nra).
  assert (Hcc : cc_real d1 d0 = Some 0).
  { rewrite cc_real_some by lra. f_equal.
    apply cc_real_zero_iff; [lra | split; [assumption | lra]]. }
  repeat split; try assumption.
  rewrite Hcc. unfold root_real. rewrite fdiv_zero. reflexivity.
Qed.

Lemma triple_root :
  delta_of d0 d1 = 0 -> d0 = 0 ->
  exists r, root_triple b = Some r /\ cubic b c d r = 0.
Proof.
  intros H H0. exists (- b / 3). split; [reflexivity |].
  unfold delta_of in H. rewrite H0 in H.
  assert (H1 : d1 = 0) by nra.
  unfold cubic. unfold d1, delta1_of in H1. fold d in H1.
  assert (Hd : d = (- 2 * b ^ 3 + 9 * b * c) / 27) by lra.
  rewrite Hd. field.
Qed.

Lemma double_and_simple_roots :
  delta_of d0 d1 = 0 -> d0 <> 0 ->
  exists rd rs,
    double_root_of coupling_loss KXin b c d0 = Some rd
    /\ simple_root_of coupling_loss KXin b c d0 = Some rs
    /\ cubic b c d rd = 0 /\ cubic b c d rs = 0 /\ rd <> rs.
Proof.
  intros H H0. unfold delta_of in H.
  assert (HD : 4 * d0 ^ 3 - d1 ^ 2 = 0) by lra.
  exists ((9 * d - b * c) / (2 * d0)), ((4 * b * c - 9 * d - b ^ 3) / d0).
  unfold double_root_of, simple_root_of. fold d.
  rewrite !fdiv_some by lra.
  repeat split.
  - apply Rmult_eq_reg_l with (8 * d0 ^ 3);
      [| apply Rmult_integral_contrapositive_currified;
         [lra | apply pow_nonzero; assumption]].
    unfold cubic.
    replace (8 * d0 ^ 3 * (((9 * d - b * c) / (2 * d0)) ^ 3
               + b * ((9 * d - b * c) / (2 * d0)) ^ 2
               + c * ((9 * d - b * c) / (2 * d0)) + d))
      with (- (d1 / 27) * (4 * d0 ^ 3 - d1 ^ 2))
      by (unfold d1, delta1_of, d0, delta0_of; fold d; field; exact H0).
    rewrite HD. ring.
  - apply Rmult_eq_reg_l with (d0 ^ 3); [| apply pow_nonzero; assumption].
    unfold cubic.
    replace (d0 ^ 3 * (((4 * b * c - 9 * d - b ^ 3) / d0) ^ 3
               + b * ((4 * b * c - 9 * d - b ^ 3) / d0) ^ 2
               + c * ((4 * b * c - 9 * d - b ^ 3) / d0) + d))
      with ((d1 / 27) * (4 * d0 ^ 3 - d1 ^ 2))
      by (unfold d1, delta1_of, d0, delta0_of; fold d; field; exact H0).
    rewrite HD. ring.
  - intros E.
    assert (Hdiff : (9 * d - b * c) / (2 * d0) - (4 * b * c - 9 * d - b ^ 3) / d0
                    = d1 / (2 * d0))
      by (unfold d1, delta1_of; fold d; field; assumption).
    rewrite E in Hdiff.
    assert (Hz : d1 / (2 * d0) = 0) by lra.
    assert (H1 : d1 = 0).
    { apply Rmult_eq_reg_r with (/ (2 * d0)).
      - unfold Rdiv in Hz. lra.
      - apply Rinv_neq_0_compat. lra. }
    rewrite H1 in HD.
    assert (H3 : d0 ^ 3 = 0) by lra.
    apply (pow_nonzero d0 3) in H0. contradiction.
Qed.
End Cases.

Section ThreeRoots.
Variables d0 d1 : R.
Hypothesis Hpos : 0 < delta_of d0 d1.

Let a := d1 ^ 2 - 4 * d0 ^ 3.

Lemma three_a_neg : a < 0.
Proof. unfold a, delta_of in *. lra. Qed.

Lemma three_d0_pos : 0 < d0.
Proof.
  pose proof three_a_neg as Ha. unfold a in Ha.
  destruct (Rlt_dec 0 d0) as [|Hn]; [assumption | exfalso].
  assert (d0 <= 0) by lra.
  assert (d0 ^ 3 <= 0) by nra.
  nra.
Qed.

Lemma Csqrt_neg_real : Csqrt (of_real a) = mkC 0 (sqrt (- a)).
Proof.
  pose proof three_a_neg as Ha.
  unfold Csqrt, of_real, Cabs, Cnorm2; simpl.
  replace (a * a + 0 * 0) with (Rsqr a) by (unfold Rsqr; ring).
  rewrite sqrt_Rsqr_abs, Rabs_left by assumption.
  destruct (Rlt_dec 0 0) as [H|_]; [lra |].
  replace ((- a + a) / 2) with 0 by field.
  replace ((- a - a) / 2) with (- a) by field.
  rewrite sqrt_0. f_equal. ring.
Qed.

Let theta := acos (d1 / (2 * sqrt (d0 ^ 3))).

Lemma cc_complex_polar :
  cc_complex d1 d0
  = mkC (sqrt d0 * cos (theta / 3)) (sqrt d0 * sin (theta / 3)).
Proof.
  pose proof three_a_neg as Ha. pose proof three_d0_pos as H0.
  unfold cc_complex. fold a. rewrite Csqrt_neg_real.
  unfold Cpow, Carg, Cabs, Cnorm2, Cscale, Cadd, of_real; simpl.
  assert (Hsq : sqrt (- a) * sqrt (- a) = - a) by (apply sqrt_sqrt; lra).
  assert (Hn : / 2 * (d1 + 0) * (/ 2 * (d1 + 0))
               + / 2 * (0 + sqrt (- a)) * (/ 2 * (0 + sqrt (- a))) = d0 ^ 3).
  { replace (/ 2 * (d1 + 0) * (/ 2 * (d1 + 0))
               + / 2 * (0 + sqrt (- a)) * (/ 2 * (0 + sqrt (- a))))
      with ((d1 ^ 2 + sqrt (- a) * sqrt (- a)) / 4) by field.
    rewrite Hsq. unfold a. field. }
  rewrite Hn.
  assert (H3 : 0 < d0 ^ 3) by (apply pow_lt; assumption).
  destruct (Req_dec_T (d0 ^ 3) 0) as [E|_]; [lra |].
  assert (Him : ~ / 2 * (0 + sqrt (- a)) < 0).
  { pose proof (sqrt_pos (- a)). lra. }
  destruct (Rlt_dec (/ 2 * (0 + sqrt (- a))) 0) as [E|_]; [contradiction |].
  rewrite Rpower_third_sqrt_cube by assumption.
  replace (/ 2 * (d1 + 0) / sqrt (d0 ^ 3)) with (d1 / (2 * sqrt (d0 ^ 3))).
  2:{ field. apply Rgt_not_eq. apply sqrt_lt_R0. assumption. }
  fold theta.
  replace (1 / 3 * theta) with (theta / 3) by field.
  reflexivity.
Qed.

Lemma theta_arg_bound : -1 < d1 / (2 * sqrt (d0 ^ 3)) < 1.
Proof.
  pose proof three_a_neg as Ha. pose proof three_d0_pos as H0.
  assert (H3 : 0 < d0 ^ 3) by (apply pow_lt; assumption).
  assert (Hs : 0 < sqrt (d0 ^ 3)) by (apply sqrt_lt_R0; assumption).
  assert (Hss : sqrt (d0 ^ 3) * sqrt (d0 ^ 3) = d0 ^ 3) by (apply sqrt_sqrt; lra).
  unfold a in Ha.
  assert (Hlt : d1 ^ 2 < (2 * sqrt (d0 ^ 3)) ^ 2) by nra.
  split.
  - apply Rmult_lt_reg_r with (2 * sqrt (d0 ^ 3)); [lra |].
    unfold Rdiv. rewrite Rmult_assoc, Rinv_l by lra. nra.
  - apply Rmult_lt_reg_r with (2 * sqrt (d0 ^ 3)); [lra |].
    unfold Rdiv. rewrite Rmult_assoc, Rinv_l by lra. nra.
Qed.

Lemma theta_bound : 0 < theta < PI.
Proof. apply acos_bound_lt. apply theta_arg_bound. Qed.

(** The three facts about the cube root [u + i v] that the rest uses. *)
Lemma cc_complex_facts :
  exists u v,
    cc_complex d1 d0 = mkC u v
    /\ u ^ 2 + v ^ 2 = d0
    /\ 2 * (u ^ 3 - 3 * u * v ^ 2) = d1
    /\ 0 < v < sqrt 3 * u.
Proof.
  pose proof three_d0_pos as H0. pose proof theta_bound as Ht.
  pose proof theta_arg_bound as Hb.
  assert (H3 : 0 < d0 ^ 3) by (apply pow_lt; assumption).
  assert (Hs : 0 < sqrt (d0 ^ 3)) by (apply sqrt_lt_R0; assumption).
  exists (sqrt d0 * cos (theta / 3)), (sqrt d0 * sin (theta / 3)).
  assert (Hq : sqrt d0 * sqrt d0 = d0) by (apply sqrt_sqrt; lra).
  split; [apply cc_complex_polar |]. split; [| split; [| split]].
  - pose proof (sin2_cos2 (theta / 3)) as Hsc. unfold Rsqr in Hsc.
    replace ((sqrt d0 * cos (theta / 3)) ^ 2 + (sqrt d0 * sin (theta / 3)) ^ 2)
      with (sqrt d0 * sqrt d0
            * (sin (theta / 3) * sin (theta / 3) + cos (theta / 3) * cos (theta / 3)))
      by ring.
    rewrite Hsc, Hq. ring.
  - replace (2 * ((sqrt d0 * cos (theta / 3)) ^ 3
                  - 3 * (sqrt d0 * cos (theta / 3)) * (sqrt d0 * sin (theta / 3)) ^ 2))
      with (2 * ((sqrt d0 * sqrt d0) * sqrt d0)
            * (cos (theta / 3) ^ 3 - 3 * cos (theta / 3) * sin (theta / 3) ^ 2))
      by ring.
    rewrite <- cos_3a. replace (3 * (theta / 3)) with theta by field.
    unfold theta. rewrite cos_acos by lra.
    rewrite Hq, <- sqrt_cube by assumption. field. lra.
  - apply Rmult_lt_0_compat; [apply sqrt_lt_R0; assumption |].
    apply sin_gt_0; lra.
  - assert (Hr : 0 < sqrt d0) by (apply sqrt_lt_R0; assumption).
    assert (Hsin : 0 < sin (PI / 3 - theta / 3)) by (apply sin_gt_0; lra).
    rewrite sin_minus, sin_PI3, cos_PI3 in Hsin.
    nra.
Qed.
End ThreeRoots.

(** A cube root of unity times the cube root: still a root of the cubic. *)
Lemma root_complex_root b c d p q u v :
  p ^ 2 + q ^ 2 = 1 ->
  p ^ 3 - 3 * p * q ^ 2 = 1 -> 3 * p ^ 2 * q - q ^ 3 = 0 ->
  u ^ 2 + v ^ 2 = b ^ 2 - 3 * c ->
  2 * (u ^ 3 - 3 * u * v ^ 2) = 2 * b ^ 3 - 9 * b * c + 27 * d ->
  b ^ 2 - 3 * c <> 0 ->
  root_complex (mkC p q) b (mkC u v) (b ^ 2 - 3 * c)
  = Some (- (b + 2 * (p * u - q * v)) / 3)
  /\ cubic b c d (- (b + 2 * (p * u - q * v)) / 3) = 0.
Proof.
  intros Hw1 Hw3r Hw3i Hn Hc H0. split.
  - unfold root_complex.
    assert (HN : Cnorm2 (Cmul (mkC p q) (mkC u v)) = b ^ 2 - 3 * c).
    { unfold Cnorm2, Cmul; cbn [re im]. rewrite <- Hn. nra. }
    rewrite Cdiv_some by (rewrite HN; assumption). rewrite HN.
    unfold creal, cmul, cadd, clift2, option_map, Cmul, Cadd, of_real;
      cbn [re im].
    f_equal. field. assumption.
  - apply cardano_trig with (v := p * v + q * u).
    + rewrite <- Hn. nra.
    + rewrite <- Hc.
      replace (2 * ((p * u - q * v) ^ 3 - 3 * (p * u - q * v) * (p * v + q * u) ^ 2))
        with (2 * ((p ^ 3 - 3 * p * q ^ 2) * (u ^ 3 - 3 * u * v ^ 2)
                   - (3 * p ^ 2 * q - q ^ 3) * (3 * u ^ 2 * v - v ^ 3))) by ring.
      rewrite Hw3r, Hw3i. ring.
Qed.

Section Three.
Variables coupling_loss KXin : R.
Variables b c : R.
Let d := coef_d coupling_loss KXin.
Let d0 := delta0_of b c.
Let d1 := delta1_of coupling_loss KXin b c.

Lemma three_distinct_roots :
  0 < delta_of d0 d1 ->
  exists r0 r1 r2,
    x0_of b (cc_complex d1 d0) d0 = Some r0
    /\ x1_of b (cc_complex d1 d0) d0 = Some r1
    /\ x2_of b (cc_complex d1 d0) d0 = Some r2
    /\ cubic b c d r0 = 0 /\ cubic b c d r1 = 0 /\ cubic b c d r2 = 0
    /\ r0 < r2 /\ r2 < r1.
Proof.
  intros H.
  destruct (cc_complex_facts d0 d1 H) as (u & v & -> & Hn & Hc & Hv & Hvu).
  pose proof (three_d0_pos d0 d1 H) as H0.
  pose proof sqrt3_sq as H3. pose proof sqrt3_pos as H3p.
  assert (Hn' : u ^ 2 + v ^ 2 = b ^ 2 - 3 * c) by exact Hn.
  assert (Hc' : 2 * (u ^ 3 - 3 * u * v ^ 2) = 2 * b ^ 3 - 9 * b * c + 27 * d)
    by exact Hc.
  assert (Hd0 : b ^ 2 - 3 * c <> 0) by (change (d0 <> 0); lra).
  set (k := sqrt 3) in *.
  assert (Hk3 : k ^ 3 = 3 * k) by (replace (k ^ 3) with (k * k * k) by ring; rewrite H3; ring).
  destruct (root_complex_root b c d (-1 / 2) (k / 2) u v) as [E1 R1];
    try assumption.
  { replace ((k / 2) ^ 2) with (k * k / 4) by field. rewrite H3. field. }
  { replace ((k / 2) ^ 2) with (k * k / 4) by field. rewrite H3. field. }
  { replace ((k / 2) ^ 3) with (k ^ 3 / 8) by field. rewrite Hk3. field. }
  destruct (root_complex_root b c d
              (-1 / 2 * (-1 / 2) - k / 2 * (k / 2))
              (-1 / 2 * (k / 2) + k / 2 * (-1 / 2)) u v) as [E2 R2];
    try assumption.
  { replace (-1 / 2 * (-1 / 2) - k / 2 * (k / 2)) with (1 / 4 - k * k / 4) by field.
    replace (-1 / 2 * (k / 2) + k / 2 * (-1 / 2)) with (- k / 2) by field.
    replace ((- k / 2) ^ 2) with (k * k / 4) by field. rewrite H3. field. }
  { replace (-1 / 2 * (-1 / 2) - k / 2 * (k / 2)) with (1 / 4 - k * k / 4) by field.
    replace (-1 / 2 * (k / 2) + k / 2 * (-1 / 2)) with (- k / 2) by field.
    replace ((- k / 2) ^ 2) with (k * k / 4) by field. rewrite H3. field. }
  { replace (-1 / 2 * (-1 / 2) - k / 2 * (k / 2)) with (1 / 4 - k * k / 4) by field.
    replace (-1 / 2 * (k / 2) + k / 2 * (-1 / 2)) with (- k / 2) by field.
    replace ((- k / 2) ^ 3) with (- k ^ 3 / 8) by field. rewrite Hk3, H3. field. }
  exists (- (b + 2 * u) / 3).
  exists (- (b + 2 * (-1 / 2 * u - k / 2 * v)) / 3).
  exists (- (b + 2 * ((-1 / 2 * (-1 / 2) - k / 2 * (k / 2)) * u
                      - (-1 / 2 * (k / 2) + k / 2 * (-1 / 2)) * v)) / 3).
  repeat split.
  - unfold x0_of.
    assert (HN : Cnorm2 (mkC u v) = d0)
      by (unfold Cnorm2; cbn [re im]; rewrite <- Hn; ring).
    rewrite Cdiv_some by (rewrite HN; lra). rewrite HN.
    unfold creal, cmul, cadd, clift2, option_map, Cmul, Cadd, of_real;
      cbn [re im].
    f_equal. field. lra.
  - exact E1.
  - exact E2.
  - apply cardano_trig with (v := v); assumption.
  - exact R1.
  - exact R2.
  - match goal with
    | |- ?r0 < ?r2 =>
        assert (Hdiff : r2 - r0 = (k * u - v) * k / 3 - (k * k - 3) * u / 6)
          by field
    end.
    rewrite H3 in Hdiff.
    assert (0 < (k * u - v) * k) by (apply Rmult_lt_0_compat; lra).
    lra.
  - assert (Hkv : 0 < k * v) by (apply Rmult_lt_0_compat; assumption).
    match goal with
    | |- ?r2 < ?r1 =>
        assert (Hdiff : r1 - r2 = 2 / 3 * (k * v) - (k * k - 3) * u / 6)
          by field
    end.
    rewrite H3 in Hdiff. lra.
Qed.
End Three.

Section Results.
Variables coupling_loss internal_loss KXin : R.

Let DD := delta_at coupling_loss internal_loss KXin.
Let one_real_at := one_real_at coupling_loss internal_loss KXin.

(** Where every point has one real root the tie-break is never called. *)
Lemma kerr_roots_one_real choose xs :
  Forall (fun x => DD x < 0) xs ->
  kerr_roots coupling_loss internal_loss KXin choose xs
  = Ok (map one_real_at xs).
Proof.
  intros Hall. unfold kerr_roots.
  rewrite !zip_with_map, !map_map, !zip_with_map.
  rewrite !select_map, !map_map, !zip_with_map, !zip_with3_map.
  edestruct (@masked_step fval R) as (r1 & E1 & H1);
    [apply Forall2_repeat | apply Forall2_map_self | rewrite E1; clear E1].
  simpl bind.
  assert (Hr1 : r1 = map one_real_at xs).
  { apply Forall2_eq_map.
    eapply Forall2_Forall_l; [exact Hall | exact H1 |].
    intros x r Hx. unfold Rltb.
    change (delta_of _ _) with (DD x).
    destruct (Rlt_dec (DD x) 0); [auto | contradiction]. }
  rewrite masked_skip.
  2:{ eapply Forall_impl; [| exact Hall]. intros x Hx. cbv beta.
      unfold Reqb. change (delta_of _ _) with (DD x).
      destruct (Req_dec_T (DD x) 0); [lra | reflexivity]. }
  simpl bind. rewrite masked_skip.
  2:{ eapply Forall_impl; [| exact Hall]. intros x Hx. cbv beta.
      unfold Reqb. change (delta_of _ _) with (DD x).
      destruct (Req_dec_T (DD x) 0); [lra | reflexivity]. }
  simpl bind. rewrite masked_skip.
  2:{ eapply Forall_impl; [| exact Hall]. intros x Hx. cbv beta.
      unfold Rgtb. change (delta_of _ _) with (DD x).
      destruct (Rlt_dec 0 (DD x)); [lra | reflexivity]. }
  simpl. now rewrite Hr1.
Qed.

Lemma chosen_picks_root x r :
  chosen coupling_loss internal_loss KXin picks x r ->
  ~ degenerate coupling_loss internal_loss KXin x ->
  exists y, r = Some y
            /\ cubic (coef_b x) (coef_c coupling_loss internal_loss x)
                     (coef_d coupling_loss KXin) y = 0.
Proof.
  unfold chosen, candidates, classify, degenerate, delta_at,
    delta0_at, delta1_at.
  set (b := coef_b x). set (c := coef_c coupling_loss internal_loss x).
  intros H Hnd.
  destruct (Rlt_dec (delta_of (delta0_of b c)
                              (delta1_of coupling_loss KXin b c)) 0) as [Hn|Hn].
  - inversion H; subst.
    apply (one_real_root coupling_loss KXin b c); assumption.
  - destruct (Rlt_dec 0 (delta_of (delta0_of b c)
                                  (delta1_of coupling_loss KXin b c))) as [Hp|Hp].
    + destruct (three_distinct_roots coupling_loss KXin b c Hp)
        as (r0 & r1 & r2 & E0 & E1 & E2 & R0 & R1 & R2 & _).
      rewrite E0, E1, E2 in H.
      destruct H as [<- | [<- | [<- | []]]]; eauto.
    + assert (Hz : delta_of (delta0_of b c)
                            (delta1_of coupling_loss KXin b c) = 0) by lra.
      destruct (Req_dec_T (delta0_of b c) 0) as [H0|H0].
      * inversion H; subst.
        apply (triple_root coupling_loss KXin b c); assumption.
      * destruct (double_and_simple_roots coupling_loss KXin b c Hz H0)
          as (rd & rs & Ed & Es & Rd & Rs & _).
        rewrite Ed, Es in H.
        destruct H as [<- | [<- | []]]; eauto.
Qed.
End Results.

Section MinMax.
Variables coupling_loss internal_loss KXin : R.

Lemma chosen_min_max x r1 r2 :
  chosen coupling_loss internal_loss KXin (folds fmin) x r1 ->
  chosen coupling_loss internal_loss KXin (folds fmax) x r2 ->
  multiple_roots coupling_loss internal_loss KXin x ->
  exists y1 y2,
    r1 = Some y1 /\ r2 = Some y2 /\ y1 < y2
    /\ cubic (coef_b x) (coef_c coupling_loss internal_loss x)
             (coef_d coupling_loss KXin) y1 = 0
    /\ cubic (coef_b x) (coef_c coupling_loss internal_loss x)
             (coef_d coupling_loss KXin) y2 = 0.
Proof.
  unfold chosen, candidates, classify, multiple_roots, delta_at,
    delta0_at, delta1_at.
  set (b := coef_b x). set (c := coef_c coupling_loss internal_loss x).
  intros H1 H2 Hm.
  destruct (Rlt_dec (delta_of (delta0_of b c)
                              (delta1_of coupling_loss KXin b c)) 0) as [Hn|Hn];
    [lra |].
  destruct (Rlt_dec 0 (delta_of (delta0_of b c)
                                (delta1_of coupling_loss KXin b c))) as [Hp|Hp].
  - destruct (three_distinct_roots coupling_loss KXin b c Hp)
      as (r0 & r1' & r2' & E0 & E1 & E2 & R0 & R1 & R2 & Hlt0 & Hlt).
    rewrite E0, E1, E2 in H1, H2. simpl in H1, H2. subst r1 r2.
    exists (Rmin (Rmin r0 r1') r2'), (Rmax (Rmax r0 r1') r2').
    split; [reflexivity | split; [reflexivity |]].
    split; [| split].
    + pose proof (Rmin_r (Rmin r0 r1') r2').
      pose proof (Rmax_l (Rmax r0 r1') r2').
      pose proof (Rmax_r r0 r1'). lra.
    + unfold Rmin. repeat destruct (Rle_dec _ _); assumption.
    + unfold Rmax. repeat destruct (Rle_dec _ _); assumption.
  - destruct Hm as [[Hz H0] | Hp']; [| lra].
    destruct (Req_dec_T (delta0_of b c) 0) as [E|_]; [contradiction |].
    destruct (double_and_simple_roots coupling_loss KXin b c Hz H0)
      as (rd & rs & Ed & Es & Rd & Rs & Hne).
    rewrite Ed, Es in H1, H2. simpl in H1, H2. subst r1 r2.
    exists (Rmin rd rs), (Rmax rd rs).
    split; [reflexivity | split; [reflexivity |]].
    split; [| split].
    + unfold Rmin, Rmax. destruct (Rle_dec rd rs); lra.
    + unfold Rmin. destruct (Rle_dec rd rs); assumption.
    + unfold Rmax. destruct (Rle_dec rd rs); assumption.
Qed.
End MinMax.

(** ** Zero drive and the bifurcation threshold *)

Section ZeroDrive.
Variables coupling_loss internal_loss : R.
Hypothesis Hs : coupling_loss + internal_loss <> 0.

Lemma delta_zero_drive x :
  delta_at coupling_loss internal_loss 0 x < 0.
Proof.
  unfold delta_at, delta0_at, delta1_at, delta_of, delta0_of, delta1_of,
    coef_b, coef_c, coef_d.
  set (s := coupling_loss + internal_loss) in *.
  replace ((4 * ((-2 * x) ^ 2 - 3 * ((s / 2) ^ 2 + x ^ 2)) ^ 3
            - (2 * (-2 * x) ^ 3 - 9 * (-2 * x) * ((s / 2) ^ 2 + x ^ 2)
               + 27 * (- 0 * coupling_loss)) ^ 2) / 27)
    with (- (((s / 2) ^ 2 + x ^ 2) ^ 2 * s ^ 2)) by field.
  assert (0 < s ^ 2) by (apply sq_pos; assumption).
  assert (0 < (s / 2) ^ 2 + x ^ 2) by nra.
  assert (0 < ((s / 2) ^ 2 + x ^ 2) ^ 2) by (apply sq_pos; lra).
  nra.
Qed.

Lemma cubic_zero_drive x y :
  cubic (coef_b x) (coef_c coupling_loss internal_loss x)
        (coef_d coupling_loss 0) y = 0 -> y = 0.
Proof.
  unfold cubic, coef_b, coef_c, coef_d.
  set (s := coupling_loss + internal_loss) in *.
  intros H.
  assert (H' : y * ((y - x) ^ 2 + (s / 2) ^ 2) = 0) by (rewrite <- H; ring).
  apply Rmult_integral in H'. destruct H' as [|H']; [assumption |].
  assert (0 < (s / 2) ^ 2) by (apply sq_pos; lra).
  pose proof (pow2_ge_0 (y - x)). lra.
Qed.

Lemma one_real_zero_drive x :
  ~ degenerate coupling_loss internal_loss 0 x ->
  one_real_at coupling_loss internal_loss 0 x = Some 0.
Proof.
  intros Hnd.
  destruct (one_real_root coupling_loss 0 (coef_b x)
                          (coef_c coupling_loss internal_loss x))
    as (y & Ey & Hy).
  - apply delta_zero_drive.
  - exact Hnd.
  - unfold one_real_at, delta0_at, delta1_at. rewrite Ey.
    f_equal. eapply cubic_zero_drive. exact Hy.
Qed.
End ZeroDrive.

Lemma bifurcation_value coupling_loss internal_loss :
  coupling_loss <> 0 ->
  kerr_detuning_at_bifurcation coupling_loss internal_loss
  = Some (Rpower 3 (-3 / 2) * (internal_loss + coupling_loss) ^ 3
          / coupling_loss).
Proof.
  intros H. unfold kerr_detuning_at_bifurcation. now rewrite fdiv_some.
Qed.


(** ** The shunt models *)

Lemma nonlinear_at_some li lc a x y :
  lc <> 0 -> 0 <= li / lc ->
  nonlinear_at li lc a x (Some y) = Some (lorentzian li lc a (x - y)).
Proof.
  intros Hlc Hli. unfold nonlinear_at.
  cbn [cadd cmul cof fsub lift2 clift2 option_map cdiv csub].
  rewrite Cdiv_real by assumption.
  cbn [cadd cmul cof fsub lift2 clift2 option_map cdiv csub].
  set (n := (1 + li / lc) ^ 2 + (2 * (x - y) / lc) ^ 2).
  assert (Hn : 0 < n).
  { unfold n. assert (0 < (1 + li / lc) ^ 2) by (apply sq_pos; lra).
    pose proof (pow2_ge_0 (2 * (x - y) / lc)). lra. }
  rewrite (Cdiv_eq _ _ (mkC (((1 + li / lc) + a * (2 * (x - y) / lc)) / n)
                            ((a * (1 + li / lc) - 2 * (x - y) / lc) / n))).
  - reflexivity.
  - unfold Cnorm2, Cadd, Cmul, Cscale, Ci, of_real; cbn [re im].
    replace ((1 + (li + (2 * 0 * (x - y) - 2 * 1 * 0)) / lc)
             * (1 + (li + (2 * 0 * (x - y) - 2 * 1 * 0)) / lc)
             + (0 + (0 + (2 * 0 * 0 + 2 * 1 * (x - y))) / lc)
               * (0 + (0 + (2 * 0 * 0 + 2 * 1 * (x - y))) / lc))
      with n by (unfold n; field; assumption).
    lra.
  - unfold Cadd, Cmul, Cscale, Ci, of_real; cbn [re im].
    assert (Hm : (lc + li) ^ 2 + (2 * (x - y)) ^ 2 <> 0).
    { replace ((lc + li) ^ 2 + (2 * (x - y)) ^ 2) with (lc ^ 2 * n)
        by (unfold n; field; assumption).
      apply Rmult_integral_contrapositive_currified;
        [apply pow_nonzero; assumption | lra]. }
    apply C_eq; cbn [re im]; unfold n; field; split; assumption.
Qed.

Lemma shunt_at_nonlinear_at rf li lc a f :
  rf <> 0 ->
  shunt_at rf li lc a f = nonlinear_at li lc a (f / rf - 1) (Some 0).
Proof.
  intros Hrf. unfold shunt_at, nonlinear_at.
  rewrite fdiv_some by assumption. cbn [fsub lift2].
  replace (f / rf - 1 - 0) with (f / rf - 1) by ring. reflexivity.
Qed.

Lemma shunt_at_some rf li lc a f :
  rf <> 0 -> lc <> 0 -> 0 <= li / lc ->
  shunt_at rf li lc a f = Some (lorentzian li lc a (f / rf - 1)).
Proof.
  intros Hrf Hlc Hli.
  rewrite shunt_at_nonlinear_at, nonlinear_at_some by assumption.
  replace (f / rf - 1 - 0) with (f / rf - 1) by ring. reflexivity.
Qed.

Lemma invert_at_lorentzian li lc a x :
  lc <> 0 -> 0 <= li / lc ->
  invert_at lc a (Some (lorentzian li lc a x)) = (Some x, Some li).
Proof.
  intros Hlc Hli. unfold invert_at.
  set (n := (1 + li / lc) ^ 2 + (2 * x / lc) ^ 2).
  assert (Hn : 0 < n).
  { unfold n. assert (0 < (1 + li / lc) ^ 2) by (apply sq_pos; lra).
    pose proof (pow2_ge_0 (2 * x / lc)). lra. }
  assert (Hm : (lc + li) ^ 2 + (2 * x) ^ 2 <> 0).
  { replace ((lc + li) ^ 2 + (2 * x) ^ 2) with (lc ^ 2 * n)
      by (unfold n; field; assumption).
    apply Rmult_integral_contrapositive_currified;
      [apply pow_nonzero; assumption | lra]. }
  cbn [cadd cmul cof fsub lift2 clift2 option_map cdiv csub].
  rewrite (Cdiv_eq _ _ (mkC (1 + li / lc) (2 * x / lc))).
  - cbn [cadd cmul cof fsub lift2 clift2 option_map cdiv csub cimag creal].
    unfold Cmul, Csub, of_real; cbn [re im].
    rewrite fdiv_some by lra. f_equal; f_equal; field; assumption.
  - unfold lorentzian, Cnorm2, Csub, of_real; cbn [re im]. fold n.
    replace ((1 - (1 - (1 + li / lc + a * (2 * x / lc)) / n))
             * (1 - (1 - (1 + li / lc + a * (2 * x / lc)) / n))
             + (0 - (0 - (a * (1 + li / lc) - 2 * x / lc) / n))
               * (0 - (0 - (a * (1 + li / lc) - 2 * x / lc) / n)))
      with ((1 + a ^ 2) / n).
    + apply Rgt_not_eq. apply Rdiv_lt_0_compat; [| assumption].
      pose proof (pow2_ge_0 a). lra.
    + unfold n. field. split; assumption.
  - unfold lorentzian, Cmul, Csub, Cadd, Ci, of_real; cbn [re im].
    apply C_eq; cbn [re im]; field; split; assumption.
Qed.

(** ** The parameter guesser *)

Lemma argmin_from_spec l : forall best besti i,
  let k := argmin_from best besti i l in
  (k = besti /\ Forall (fun y => best <= y) l /\ fold_left Rmin l best = best)
  \/ ((i <= k < i + length l)%nat
      /\ exists v, nth_error l (k - i) = Some v /\ v < best
                   /\ Forall (fun y => v <= y) l
                   /\ fold_left Rmin l best = v).
Proof.
  induction l as [|x xs IH]; intros best besti i; simpl.
  - left. repeat split. constructor.
  - destruct (Rlt_dec x best) as [Hlt|Hge].
    + right. specialize (IH x i (S i)). simpl in IH.
      replace (Rmin best x) with x by (unfold Rmin; destruct (Rle_dec best x); lra).
      destruct IH as [(Ek & Hall & Hf) | (Hk & v & Hv & Hvx & Hall & Hf)].
      * rewrite Ek. split; [lia |]. exists x.
        replace (i - i)%nat with 0%nat by lia. simpl.
        repeat split; try assumption. constructor; [lra | assumption].
      * split; [lia |]. exists v.
        destruct (argmin_from x i (S i) xs - i)%nat as [|n] eqn:En; [lia |].
        replace (argmin_from x i (S i) xs - S i)%nat with n in Hv by lia.
        simpl. repeat split; try assumption; try lra.
        constructor; [lra | assumption].
    + specialize (IH best besti (S i)). simpl in IH.
      replace (Rmin best x) with best by (unfold Rmin; destruct (Rle_dec best x); lra).
      destruct IH as [(Ek & Hall & Hf) | (Hk & v & Hv & Hvx & Hall & Hf)].
      * left. repeat split; try assumption. constructor; [lra | assumption].
      * right. split; [lia |]. exists v.
        destruct (argmin_from best besti (S i) xs - i)%nat as [|n] eqn:En; [lia |].
        replace (argmin_from best besti (S i) xs - S i)%nat with n in Hv by lia.
        simpl. repeat split; try assumption.
        constructor; [lra | assumption].
Qed.

Lemma argmin_spec l k :
  argmin l = Ok k ->
  exists v, nth_error l k = Some v /\ Forall (fun y => v <= y) l
            /\ amin l = Ok v.
Proof.
  destruct l as [|x xs]; simpl; [discriminate |].
  intros E. inversion E as [Ek]. clear E.
  destruct (argmin_from_spec xs x 0%nat 1%nat)
    as [(E & Hall & Hf) | (Hk & v & Hv & Hvx & Hall & Hf)].
  - rewrite E. exists x. simpl. repeat split.
    + constructor; [lra | assumption].
    + now rewrite Hf.
  - exists v. destruct (argmin_from x 0 1 xs) as [|n]; [lia |].
    simpl in *. replace (n - 0)%nat with n in Hv by lia.
    repeat split; try assumption.
    + constructor; [lra | assumption].
    + now rewrite Hf.
Qed.

Lemma argmax_from_bound l : forall best besti i,
  argmax_from best besti i l = besti
  \/ (i <= argmax_from best besti i l < i + length l)%nat.
Proof.
  induction l as [|x xs IH]; intros best besti i; simpl; [now left |].
  destruct (Rlt_dec best x).
  - right. destruct (IH x i (S i)) as [E | H]; [rewrite E |]; lia.
  - destruct (IH best besti (S i)) as [E | H]; [now left | right; lia].
Qed.

Lemma argmin_defined l :
  l <> [] -> exists k, argmin l = Ok k /\ (k < length l)%nat.
Proof.
  destruct l as [|x xs]; [congruence | intros _].
  eexists. split; [reflexivity |]. simpl.
  destruct (argmin_from_spec xs x 0%nat 1%nat) as [(E & _) | (Hk & _)]; lia.
Qed.

Lemma argmax_defined l :
  l <> [] -> exists k, argmax l = Ok k /\ (k < length l)%nat.
Proof.
  destruct l as [|x xs]; [congruence | intros _].
  eexists. split; [reflexivity |]. simpl.
  destruct (argmax_from_bound xs x 0%nat 1%nat) as [E | H]; lia.
Qed.

Lemma index_defined a i :
  (i < length a)%nat -> exists x, index a i = Ok x /\ nth_error a i = Some x.
Proof.
  intros H. unfold index. destruct (nth_error a i) as [x|] eqn:E.
  - now exists x.
  - apply nth_error_None in E. lia.
Qed.

Lemma padd_length a b : length (padd a b) = Nat.max (length a) (length b).
Proof.
  revert b. induction a as [|x xs IH]; intros [|y ys]; simpl; auto.
Qed.

Lemma conv_full_length a v :
  a <> [] -> v <> [] ->
  length (conv_full a v) = (length a + length v - 1)%nat.
Proof.
  intros Ha Hv. induction a as [|x a' IH]; [congruence |].
  simpl. rewrite padd_length, length_map. simpl.
  destruct a' as [|x' a''].
  - simpl. destruct v; [congruence | simpl; lia].
  - rewrite IH by congruence. simpl. lia.
Qed.

Lemma convolve_same_defined a v :
  a <> [] -> v <> [] ->
  exists l, convolve_same a v = Ok l
            /\ length l = Nat.max (length a) (length v).
Proof.
  intros Ha Hv. unfold convolve_same.
  destruct a as [|x a']; [congruence |]. destruct v as [|y v']; [congruence |].
  eexists. split; [reflexivity |].
  rewrite length_firstn, length_skipn, conv_full_length by congruence.
  set (m := Nat.min (length (x :: a')) (length (y :: v'))).
  pose proof (Nat.Div0.mul_div_le (m - 1) 2) as Hd.
  assert (Hm : (m <= length (x :: a') /\ m <= length (y :: v')
                /\ (m = length (x :: a') \/ m = length (y :: v')))%nat)
    by (unfold m; lia).
  clearbody m. cbn [length] in *. lia.
Qed.

Lemma linspace_length a b n : length (linspace a b n) = n.
Proof.
  unfold linspace. destruct n as [|[|n]]; simpl; try reflexivity.
  rewrite length_map, length_seq. reflexivity.
Qed.

Lemma trim_length w a :
  (0 < w)%nat -> length (trim w a) = (length a - w - w)%nat.
Proof.
  intros H. unfold trim. destruct w; [lia |].
  rewrite length_skipn, length_firstn. lia.
Qed.

Lemma linewidth_defined frequency data :
  (10 <= length frequency)%nat -> length data = length frequency ->
  exists lw, linewidth_of frequency data = Ok lw.
Proof.
  intros Hn Hd. unfold linewidth_of.
  set (n := length frequency) in *.
  assert (Hw : (0 < n / 10)%nat) by (apply Nat.div_str_pos; lia).
  assert (Hw2 : (10 * (n / 10) <= n)%nat) by apply Nat.Div0.mul_div_le.
  set (g := map _ (map _ (linspace _ _ _))).
  assert (Hg : length g = (n / 10)%nat)
    by (unfold g; rewrite !length_map, linspace_length; reflexivity).
  destruct (convolve_same_defined g (map Cabs data)) as (sm & -> & Hsm).
  { intros E. rewrite E in Hg. cbn [length] in Hg. lia. }
  { intros E. apply (f_equal (@length R)) in E.
    rewrite length_map in E. cbn [length] in E. lia. }
  rewrite length_map, Hg, Hd in Hsm. cbn [bind].
  destruct (convolve_same_defined [1; -1] sm) as (dv & -> & Hdv).
  { congruence. }
  { intros E. rewrite E in Hsm. cbn [length] in Hsm. lia. }
  cbn [length] in Hdv. cbn [bind].
  assert (Ht : length (trim (n / 10) dv) = (length dv - n / 10 - n / 10)%nat)
    by (apply trim_length; assumption).
  destruct (argmax_defined (trim (n / 10) dv)) as (imax & -> & Himax).
  { intros E. rewrite E in Ht. cbn [length] in Ht. lia. }
  cbn [bind].
  destruct (index_defined frequency imax) as (fhi & -> & _); [fold n; lia |].
  cbn [bind].
  destruct (argmin_defined (trim (n / 10) dv)) as (imin & -> & Himin).
  { intros E. rewrite E in Ht. cbn [length] in Ht. lia. }
  cbn [bind].
  destruct (index_defined frequency imin) as (flo & -> & _); [fold n; lia |].
  simpl. eauto.
Qed.

Lemma amin_argmin l k v :
  argmin l = Ok k -> amin l = Ok v ->
  nth_error l k = Some v /\ Forall (fun y => v <= y) l.
Proof.
  intros Hk Hv. destruct (argmin_spec l k Hk) as (w & Hn & Hall & Hw).
  rewrite Hw in Hv. inversion Hv; subst. auto.
Qed.

Lemma argmin_from_before l : forall best besti i j y,
  (besti < i)%nat ->
  nth_error l j = Some y ->
  (i + j < argmin_from best besti i l)%nat ->
  fold_left Rmin l best < y.
Proof.
  induction l as [|x xs IH]; intros best besti i j y Hb Hj Hk.
  - destruct j; discriminate.
  - cbn [argmin_from] in Hk. cbn [fold_left].
    destruct (Rlt_dec x best) as [Hlt | Hge].
    + replace (Rmin best x) with x
        by (unfold Rmin; destruct (Rle_dec best x); lra).
      destruct j as [|j'].
      * cbn [nth_error] in Hj. inversion Hj; subst y.
        destruct (argmin_from_spec xs x i (S i))
          as [(E & _) | (_ & v & _ & Hv & _ & Hf)]; cbv zeta in *.
        -- rewrite E in Hk. lia.
        -- rewrite Hf. exact Hv.
      * cbn [nth_error] in Hj.
        apply (IH x i (S i) j' y); [lia | exact Hj | lia].
    + replace (Rmin best x) with best
        by (unfold Rmin; destruct (Rle_dec best x); lra).
      destruct j as [|j'].
      * cbn [nth_error] in Hj. inversion Hj; subst y.
        destruct (argmin_from_spec xs best besti (S i))
          as [(E & _) | (_ & v & _ & Hv & _ & Hf)]; cbv zeta in *.
        -- rewrite E in Hk. lia.
        -- rewrite Hf. lra.
      * cbn [nth_error] in Hj.
        apply (IH best besti (S i) j' y); [lia | exact Hj | lia].
Qed.

(** [np.argmin] returns the first index of the minimum. *)
Lemma argmin_first l k v j y :
  argmin l = Ok k -> amin l = Ok v ->
  (j < k)%nat -> nth_error l j = Some y -> v < y.
Proof.
  destruct l as [|x xs]; [discriminate |].
  cbn [argmin amin]. intros Ek Ev Hjk Hj.
  inversion Ek as [Ek']. inversion Ev as [Ev']. clear Ek Ev.
  destruct j as [|j'].
  - cbn [nth_error] in Hj. inversion Hj; subst y.
    destruct (argmin_from_spec xs x 0%nat 1%nat)
      as [(E & _) | (_ & w & _ & Hw & _ & Hf)]; cbv zeta in *.
    + rewrite E in Ek'. lia.
    + rewrite Hf. exact Hw.
  - cbn [nth_error] in Hj.
    apply (argmin_from_before xs x 0%nat 1%nat j' y); [lia | exact Hj | lia].
Qed.

Lemma ieee_div_finite x y :
  y <> 0 -> ieee_div (Finite x) (Finite y) = Finite (x / y).
Proof.
  intros H. unfold ieee_div.
  destruct (Req_dec_T y 0); [contradiction | reflexivity].
Qed.

Lemma ieee_div_zero_pos x :
  0 < x -> ieee_div (Finite x) (Finite 0) = PosInf.
Proof.
  intros H. unfold ieee_div.
  destruct (Req_dec_T 0 0) as [_ | E]; [| congruence].
  unfold ieee_scale_inf. destruct (Rlt_dec 0 x); [reflexivity | contradiction].
Qed.


(** Line 27 in float64 arithmetic.  A smallest magnitude of zero gives the
    ratio zero: [1 / 0] is [inf] and [1 / (inf - 1)] is [0]. *)
Lemma internal_over_coupling_finite lowest :
  lowest <> 1 ->
  exists ratio,
    ieee_div (Finite 1)
             (ieee_sub (ieee_div (Finite 1) (Finite lowest)) (Finite 1))
    = Finite ratio
    /\ (lowest <> 0 -> ratio = 1 / (1 / lowest - 1) /\ 1 / lowest - 1 <> 0)
    /\ (lowest = 0 -> ratio = 0)
    /\ 1 + ratio <> 0.
Proof.
  intros Hm1. destruct (Req_dec_T lowest 0) as [E0 | Hm0].
  - exists 0. subst lowest. rewrite ieee_div_zero_pos by lra.
    cbn [ieee_sub ieee_neg ieee_add ieee_div].
    repeat split; try reflexivity; lra.
  - assert (Hq : 1 / lowest - 1 <> 0).
    { intros E. apply Hm1.
      assert (E' : 1 / lowest = 1) by lra.
      apply (f_equal (Rmult lowest)) in E'.
      replace (lowest * (1 / lowest)) with 1 in E' by (field; assumption).
      lra. }
    exists (1 / (1 / lowest - 1)).
    rewrite (ieee_div_finite 1 lowest) by assumption.
    cbn [ieee_sub ieee_neg ieee_add].
    replace (1 / lowest + - (1)) with (1 / lowest - 1) by ring.
    rewrite ieee_div_finite by assumption.
    repeat split; try reflexivity; try assumption; try contradiction.
    set (q := 1 / lowest - 1) in *. intros E.
    assert (E2 : (1 + 1 / q) * q = q + 1) by (field; exact Hq).
    rewrite E in E2.
    assert (E3 : / lowest = 0) by (unfold q in E2; lra).
    apply (Rinv_neq_0_compat lowest Hm0). exact E3.
Qed.

(** What [guess_smooth] returns on a sweep of at least ten non-zero
    frequencies whose smallest magnitude is not one. *)
Lemma guess_smooth_value frequency data lowest :
  (10 <= length frequency)%nat ->
  length data = length frequency ->
  Forall (fun f => f <> 0) frequency ->
  amin (map Cabs data) = Ok lowest ->
  lowest <> 1 ->
  exists i resonance_frequency linewidth ratio,
    guess_smooth frequency data
    = Ok (resonance_frequency,
          Finite (linewidth / resonance_frequency / (1 + ratio)),
          Finite (linewidth / resonance_frequency * ratio / (1 + ratio)))
    /\ nth_error frequency i = Some resonance_frequency
    /\ nth_error (map Cabs data) i = Some lowest
    /\ Forall (fun y => lowest <= y) (map Cabs data)
    /\ (forall j y, (j < i)%nat -> nth_error (map Cabs data) j = Some y ->
                    lowest < y)
    /\ linewidth_of frequency data = Ok linewidth
    /\ resonance_frequency <> 0
    /\ ieee_div (Finite 1)
                (ieee_sub (ieee_div (Finite 1) (Finite lowest)) (Finite 1))
       = Finite ratio
    /\ (lowest <> 0 -> ratio = 1 / (1 / lowest - 1) /\ 1 / lowest - 1 <> 0)
    /\ (lowest = 0 -> ratio = 0)
    /\ 1 + ratio <> 0.
Proof.
  intros Hn Hd Hf Hm Hm1.
  destruct (argmin_defined (map Cabs data)) as (i & Ei & Hi).
  { intros E. apply (f_equal (@length R)) in E.
    rewrite length_map in E. cbn [length] in E. lia. }
  rewrite length_map, Hd in Hi.
  destruct (index_defined frequency i Hi) as (rf & Erf & Hrf).
  destruct (linewidth_defined frequency data Hn Hd) as (lw & Elw).
  destruct (amin_argmin _ _ _ Ei Hm) as (Hlow & Hall).
  assert (Hrf0 : rf <> 0).
  { rewrite Forall_forall in Hf. apply Hf. eapply nth_error_In. exact Hrf. }
  destruct (internal_over_coupling_finite lowest Hm1)
    as (ratio & Er & Hr1 & Hr0 & Hp).
  exists i, rf, lw, ratio.
  split; [| repeat split; try assumption].
  - unfold guess_smooth. rewrite Ei. cbn [bind]. rewrite Erf. cbn [bind].
    rewrite Elw. cbn [bind]. rewrite Hm. cbn [bind].
    rewrite Er. rewrite (ieee_div_finite lw rf) by assumption.
    cbn [ieee_add ieee_mul]. rewrite !ieee_div_finite by assumption.
    reflexivity.
  - intros j y Hj Hy. eapply argmin_first; eassumption.
  - apply Hr1. assumption.
  - apply Hr1. assumption.
Qed.

(** *** Evaluation on concrete sweeps *)

Lemma argmin_from_lt best besti i x xs :
  x < best ->
  argmin_from best besti i (x :: xs) = argmin_from x i (S i) xs.
Proof. intros H. simpl. destruct (Rlt_dec x best); [reflexivity | contradiction]. Qed.

Lemma argmin_from_ge best besti i x xs :
  best <= x ->
  argmin_from best besti i (x :: xs) = argmin_from best besti (S i) xs.
Proof. intros H. simpl. destruct (Rlt_dec x best); [lra | reflexivity]. Qed.

Lemma argmax_from_lt best besti i x xs :
  best < x ->
  argmax_from best besti i (x :: xs) = argmax_from x i (S i) xs.
Proof. intros H. simpl. destruct (Rlt_dec best x); [reflexivity | contradiction]. Qed.

Lemma argmax_from_ge best besti i x xs :
  x <= best ->
  argmax_from best besti i (x :: xs) = argmax_from best besti (S i) xs.
Proof. intros H. simpl. destruct (Rlt_dec best x); [lra | reflexivity]. Qed.

(** Evaluation of the extrema of a list of concrete reals. *)
Ltac eval_extrema :=
  repeat first
    [ rewrite argmin_from_lt by lra | rewrite argmin_from_ge by lra
    | rewrite argmax_from_lt by lra | rewrite argmax_from_ge by lra
    | match goal with
      | |- context [Rmin ?a ?b] =>
          first [rewrite (Rmin_left a b) by lra
                | rewrite (Rmin_right a b) by lra]
      end ].

Lemma amin_dip10 : amin (map Cabs dip10) = Ok (1 / 2).
Proof.
  unfold dip10. cbn [map amin fold_left].
  rewrite !Cabs_real by lra. eval_extrema. reflexivity.
Qed.




Lemma linewidth_dip10 : linewidth_of sweep10 dip10 = Ok (5 - 4).
Proof.
  unfold linewidth_of.
  change (length sweep10 / 10)%nat with 1%nat.
  unfold sweep10, dip10.
  cbn [linspace map sum fold_left].
  set (e := exp _).
  assert (He : e / (0 + e) = 1).
  { field. apply Rgt_not_eq. unfold e. apply exp_pos. }
  rewrite He. clear He e.
  rewrite !Cabs_real by lra.
  unfold convolve_same.
  cbn [length Nat.max Nat.min Nat.sub Nat.div Nat.divmod fst conv_full map padd
       firstn skipn bind trim argmax argmin].
  eval_extrema. cbn [argmax_from argmin_from bind index nth_error].
  reflexivity.
Qed.

(** The guess for the dip: the resonance is at the fifth frequency, and
    the loss [1 / 5] is shared equally. *)
Example guess_smooth_dip10 :
  guess_smooth sweep10 dip10 = Ok (5, Finite (1 / 10), Finite (1 / 10)).
Proof.
  unfold guess_smooth. rewrite linewidth_dip10, amin_dip10.
  unfold dip10, sweep10. cbn [map argmin].
  rewrite !Cabs_real by lra. eval_extrema.
  cbn [argmin_from bind index nth_error].
  rewrite (ieee_div_finite (5 - 4) 5) by lra.
  rewrite (ieee_div_finite 1 (1 / 2)) by lra.
  cbn [ieee_sub ieee_neg ieee_add].
  replace (1 / (1 / 2) + - (1)) with 1 by field.
  rewrite (ieee_div_finite 1 1) by lra.
  cbn [ieee_add ieee_mul]. rewrite !ieee_div_finite by lra.
  do 2 f_equal; [f_equal |]; f_equal; field.
Qed.

Lemma amin_zero10 : amin (map Cabs zero10) = Ok 0.
Proof.
  unfold zero10. cbn [map amin fold_left].
  rewrite !Cabs_real by lra. eval_extrema. reflexivity.
Qed.

Lemma linewidth_zero10 : linewidth_of sweep10 zero10 = Ok (5 - 4).
Proof.
  unfold linewidth_of.
  change (length sweep10 / 10)%nat with 1%nat.
  unfold sweep10, zero10.
  cbn [linspace map sum fold_left].
  set (e := exp _).
  assert (He : e / (0 + e) = 1).
  { field. apply Rgt_not_eq. unfold e. apply exp_pos. }
  rewrite He. clear He e.
  rewrite !Cabs_real by lra.
  unfold convolve_same.
  cbn [length Nat.max Nat.min Nat.sub Nat.div Nat.divmod fst conv_full map padd
       firstn skipn bind trim argmax argmin].
  eval_extrema. cbn [argmax_from argmin_from bind index nth_error].
  reflexivity.
Qed.

(** The guess for a dip that reaches zero: [1 / 0] is [inf], the loss ratio
    is [1 / (inf - 1) = 0], and the whole loss [1 / 5] is coupling loss. *)
Example guess_smooth_zero10 :
  guess_smooth sweep10 zero10 = Ok (5, Finite (1 / 5), Finite 0).
Proof.
  unfold guess_smooth. rewrite linewidth_zero10, amin_zero10.
  unfold zero10, sweep10. cbn [map argmin].
  rewrite !Cabs_real by lra. eval_extrema.
  cbn [argmin_from bind index nth_error].
  rewrite (ieee_div_finite (5 - 4) 5) by lra.
  rewrite (ieee_div_zero_pos 1) by lra.
  cbn [ieee_sub ieee_neg ieee_add].
  change (ieee_div (Finite 1) PosInf) with (Finite 0).
  cbn [ieee_add ieee_mul]. rewrite !ieee_div_finite by lra.
  do 2 f_equal; [f_equal |]; f_equal; field.
Qed.



(** ** The resolver as a whole *)

Section Resolver.
Variables coupling_loss internal_loss KXin : R.

(** A well-conditioned detuning is not a degenerate point. *)
Lemma well_conditioned_not_degenerate x :
  well_conditioned coupling_loss internal_loss KXin x ->
  ~ degenerate coupling_loss internal_loss KXin x.
Proof.
  intros [H | H] [H0 H1]; [lra |].
  rewrite H0, Rabs_R0 in H. unfold cancellation_margin in H.
  assert (0 < delta1_at coupling_loss internal_loss KXin x ^ 2)
    by (apply sq_pos; lra).
  replace (4 * 0 ^ 3) with 0 in H by ring. lra.
Qed.

Lemma degenerate_one_real x :
  degenerate coupling_loss internal_loss KXin x ->
  delta_at coupling_loss internal_loss KXin x < 0
  /\ one_real_at coupling_loss internal_loss KXin x = None.
Proof.
  intros [H0 H1].
  destruct (one_real_nan coupling_loss KXin (coef_b x)
              (coef_c coupling_loss internal_loss x) H0 H1) as (Hd & _ & Hr).
  split; assumption.
Qed.

(** At every well-conditioned detuning the entry of the result is a real
    root of the cubic, in each of the four branches and whatever candidate
    the tie-break picks. *)
Theorem kerr_roots_are_roots choose xs :
  choose_spec picks choose ->
  exists rs,
    snd (kerr_detuning coupling_loss internal_loss KXin choose (Array1 xs))
    = Ok (Array rs)
    /\ Forall2 (fun x r =>
                  well_conditioned coupling_loss internal_loss KXin x ->
                  exists y, r = Some y
                            /\ cubic (coef_b x)
                                     (coef_c coupling_loss internal_loss x)
                                     (coef_d coupling_loss KXin) y = 0)
               xs rs.
Proof.
  intros Hc.
  destruct (kerr_roots_chosen coupling_loss internal_loss KXin choose picks
                              Hc xs) as (rs & E & H).
  exists rs. simpl. rewrite E. split; [reflexivity |].
  revert H. apply Forall2_impl. intros x r Hx Hwc.
  apply chosen_picks_root; [assumption |].
  now apply well_conditioned_not_degenerate.
Qed.

(** The lower degenerate point is there at every drive. *)
Lemma degenerate_lower_branch :
  0 < coupling_loss -> 0 < internal_loss -> 0 <= KXin ->
  degenerate coupling_loss internal_loss KXin
             (- (sqrt 3 / 2) * (coupling_loss + internal_loss)).
Proof.
  intros Hc Hi HK. pose proof sqrt3_sq as H3. pose proof sqrt3_pos as H3p.
  unfold degenerate, delta0_at, delta1_at, delta0_of, delta1_of, coef_b,
    coef_c, coef_d.
  set (k := sqrt 3) in *. set (s := coupling_loss + internal_loss).
  assert (Hs : 0 < s) by (unfold s; lra).
  split.
  - replace ((-2 * (- (k / 2) * s)) ^ 2
             - 3 * ((s / 2) ^ 2 + (- (k / 2) * s) ^ 2))
      with ((k * k - 3) * s ^ 2 / 4) by field.
    rewrite H3. field.
  - replace (2 * (-2 * (- (k / 2) * s)) ^ 3
             - 9 * (-2 * (- (k / 2) * s)) * ((s / 2) ^ 2 + (- (k / 2) * s) ^ 2)
             + 27 * (- KXin * coupling_loss))
      with (- ((k * k) * k * s ^ 3 / 4 + 9 * k * s ^ 3 / 4
               + 27 * (KXin * coupling_loss))) by field.
    rewrite H3.
    assert (0 < k * s ^ 3) by (apply Rmult_lt_0_compat; [| apply pow_lt]; assumption).
    assert (0 <= KXin * coupling_loss) by (apply Rmult_le_pos; lra).
    lra.
Qed.

(** At a degenerate point the result is not a number, whatever the
    tie-break. *)
Lemma kerr_roots_degenerate choose x :
  degenerate coupling_loss internal_loss KXin x ->
  kerr_roots coupling_loss internal_loss KXin choose [x] = Ok [None].
Proof.
  intros H. apply degenerate_one_real in H. destruct H as [Hd Hr].
  rewrite kerr_roots_one_real by (constructor; [exact Hd | constructor]).
  simpl. now rewrite Hr.
Qed.

(** Shape and alignment of the result. *)
Lemma kerr_detuning_aligned choose CS detuning :
  choose_spec CS choose ->
  exists o,
    snd (kerr_detuning coupling_loss internal_loss KXin choose detuning)
    = Ok o
    /\ out_shape o = shape_of detuning
    /\ match detuning, o with
       | PyFloat x, Scalar r | Array0 x, Scalar r =>
           chosen coupling_loss internal_loss KXin CS x r
       | Array1 xs, Array rs =>
           Forall2 (chosen coupling_loss internal_loss KXin CS) xs rs
       | _, _ => False
       end.
Proof.
  intros Hc. destruct detuning as [x | x | xs]; simpl.
  - destruct (kerr_roots_chosen coupling_loss internal_loss KXin choose CS
                                Hc [x]) as (rs & -> & H).
    inversion H as [|? r ? rs' Hr Hnil]; subst. inversion Hnil; subst.
    exists (Scalar r). simpl. auto.
  - destruct (kerr_roots_chosen coupling_loss internal_loss KXin choose CS
                                Hc [x]) as (rs & -> & H).
    inversion H as [|? r ? rs' Hr Hnil]; subst. inversion Hnil; subst.
    exists (Scalar r). simpl. auto.
  - destruct (kerr_roots_chosen coupling_loss internal_loss KXin choose CS
                                Hc xs) as (rs & -> & H).
    exists (Array rs). simpl. repeat split; [| assumption].
    f_equal. symmetry. eapply Forall2_length. exact H.
Qed.
End Resolver.

(** The instance of a two-entry sweep with both losses [1 / 2]. *)
Lemma kerr_roots_are_roots_witness :
  exists rs,
    snd (kerr_detuning (1 / 2) (1 / 2) 2 np_min (Array1 [0; 2])) = Ok (Array rs)
    /\ Forall2 (fun x r =>
                  well_conditioned (1 / 2) (1 / 2) 2 x ->
                  exists y, r = Some y
                            /\ cubic (coef_b x) (coef_c (1 / 2) (1 / 2) x)
                                     (coef_d (1 / 2) 2) y = 0)
               [0; 2] rs.
Proof.
  apply (kerr_roots_are_roots (1 / 2) (1 / 2) 2 np_min [0; 2]).
  exact np_min_picks.
Defined.

(** At a triple root the tie-break is not called either. *)
Lemma kerr_roots_triple coupling_loss internal_loss KXin choose x :
  delta_at coupling_loss internal_loss KXin x = 0 ->
  delta0_at coupling_loss internal_loss x = 0 ->
  kerr_roots coupling_loss internal_loss KXin choose [x]
  = Ok [root_triple (coef_b x)].
Proof.
  intros Hd H0. unfold kerr_roots.
  cbn [map zip_with length repeat].
  change (delta_of _ _) with (delta_at coupling_loss internal_loss KXin x).
  change (delta0_of _ _) with (delta0_at coupling_loss internal_loss x).
  rewrite Hd, H0.
  unfold Rltb, Reqb, Rgtb, Rneqb, Reqb.
  destruct (Rlt_dec 0 0) as [E|_]; [lra |].
  destruct (Req_dec_T 0 0) as [_|E]; [| congruence].
  reflexivity.
Qed.

Lemma shape_of_effect coupling_loss internal_loss KXin choose detuning :
  fst (kerr_detuning coupling_loss internal_loss KXin choose detuning)
  = match detuning with
    | Array0 x => Array1 [x]
    | _ => detuning
    end.
Proof. destruct detuning; reflexivity. Qed.

(** ** The shunt models at zero drive *)


(** The degenerate points are the lower edge
    [-(sqrt 3 / 2) (coupling_loss + internal_loss)] at every drive, and the
    upper edge once the drive exceeds the bifurcation threshold. *)
Lemma degenerate_iff coupling_loss internal_loss KXin x :
  0 < coupling_loss -> 0 < internal_loss -> 0 <= KXin ->
  degenerate coupling_loss internal_loss KXin x
  <-> x = - (sqrt 3 / 2) * (coupling_loss + internal_loss)
      \/ (x = sqrt 3 / 2 * (coupling_loss + internal_loss)
          /\ sqrt 3 * (coupling_loss + internal_loss) ^ 3 / (9 * coupling_loss)
             < KXin).
Proof.
  intros Hc Hi HK. pose proof sqrt3_sq as H3. pose proof sqrt3_pos as H3p.
  split.
  - intros [H0 H1].
    unfold delta0_at, delta1_at, delta0_of, delta1_of, coef_b, coef_c, coef_d
      in H0, H1.
    set (k := sqrt 3) in *. set (s := coupling_loss + internal_loss) in *.
    assert (Hs : 0 < s) by (unfold s; lra).
    assert (Hx2 : (x + k / 2 * s) * (x - k / 2 * s) = 0).
    { replace ((x + k / 2 * s) * (x - k / 2 * s))
        with (x ^ 2 - (k * k) * s ^ 2 / 4) by field.
      rewrite H3. lra. }
    apply Rmult_integral in Hx2. destruct Hx2 as [Hx | Hx]; [left; lra | right].
    assert (Ex : x = k / 2 * s) by lra.
    split; [exact Ex |].
    rewrite Ex in H1.
    replace (2 * (-2 * (k / 2 * s)) ^ 3
             - 9 * (-2 * (k / 2 * s)) * ((s / 2) ^ 2 + (k / 2 * s) ^ 2)
             + 27 * (- KXin * coupling_loss))
      with (- (k * k) * k * s ^ 3 * 2 + 9 * k * s ^ 3 / 4
            + 9 * (k * k) * k * s ^ 3 / 4 - 27 * (KXin * coupling_loss))
      in H1 by field.
    rewrite H3 in H1.
    apply Rmult_lt_reg_r with (9 * coupling_loss); [lra |].
    replace (k * s ^ 3 / (9 * coupling_loss) * (9 * coupling_loss))
      with (k * s ^ 3) by (field; lra).
    lra.
  - intros [-> | [-> Hlt]].
    + apply degenerate_lower_branch; assumption.
    + unfold degenerate, delta0_at, delta1_at, delta0_of, delta1_of, coef_b,
        coef_c, coef_d.
      set (k := sqrt 3) in *. set (s := coupling_loss + internal_loss) in *.
      split.
      * replace ((-2 * (k / 2 * s)) ^ 2 - 3 * ((s / 2) ^ 2 + (k / 2 * s) ^ 2))
          with ((k * k - 3) * s ^ 2 / 4) by field.
        rewrite H3. field.
      * replace (2 * (-2 * (k / 2 * s)) ^ 3
                 - 9 * (-2 * (k / 2 * s)) * ((s / 2) ^ 2 + (k / 2 * s) ^ 2)
                 + 27 * (- KXin * coupling_loss))
          with (- (k * k) * k * s ^ 3 * 2 + 9 * k * s ^ 3 / 4
                + 9 * (k * k) * k * s ^ 3 / 4 - 27 * (KXin * coupling_loss))
          by field.
        rewrite H3.
        apply Rmult_lt_compat_r with (r := 9 * coupling_loss) in Hlt; [| lra].
        replace (k * s ^ 3 / (9 * coupling_loss) * (9 * coupling_loss))
          with (k * s ^ 3) in Hlt by (field; lra).
        lra.
Qed.

(** The instance with both losses [1 / 2] and no drive. *)
Lemma degenerate_iff_witness :
  degenerate (1 / 2) (1 / 2) 0 (- (sqrt 3 / 2) * (1 / 2 + 1 / 2)).
Proof.
  apply (degenerate_iff (1 / 2) (1 / 2) 0); [lra | lra | lra |].
  left. reflexivity.
Defined.

(** At zero drive the lower degenerate point is the only one. *)
Lemma degenerate_zero_drive_iff coupling_loss internal_loss x :
  0 < coupling_loss + internal_loss ->
  degenerate coupling_loss internal_loss 0 x
  <-> x = - (sqrt 3 / 2) * (coupling_loss + internal_loss).
Proof.
  intros Hs. pose proof sqrt3_sq as H3. pose proof sqrt3_pos as H3p.
  unfold degenerate, delta0_at, delta1_at, delta0_of, delta1_of, coef_b,
    coef_c, coef_d.
  set (k := sqrt 3) in *. set (s := coupling_loss + internal_loss) in *.
  split.
  - intros [H0 H1].
    assert (Hx2 : (x - k / 2 * s) * (x + k / 2 * s) = 0).
    { replace ((x - k / 2 * s) * (x + k / 2 * s))
        with (x ^ 2 - (k * k) * s ^ 2 / 4) by field.
      rewrite H3. lra. }
    apply Rmult_integral in Hx2. destruct Hx2 as [Hx | Hx]; [exfalso | lra].
    assert (Hxp : 0 < x) by (assert (0 < k / 2 * s) by nra; lra).
    assert (0 < 2 * x ^ 3 + 9 / 2 * x * s ^ 2).
    { assert (0 < x ^ 3) by (apply pow_lt; assumption).
      assert (0 < x * s ^ 2) by (apply Rmult_lt_0_compat; [| apply pow_lt]; assumption).
      lra. }
    lra.
  - intros ->. split.
    + replace ((-2 * (- (k / 2) * s)) ^ 2
               - 3 * ((s / 2) ^ 2 + (- (k / 2) * s) ^ 2))
        with ((k * k - 3) * s ^ 2 / 4) by field.
      rewrite H3. field.
    + replace (2 * (-2 * (- (k / 2) * s)) ^ 3
               - 9 * (-2 * (- (k / 2) * s)) * ((s / 2) ^ 2 + (- (k / 2) * s) ^ 2)
               + 27 * (- 0 * coupling_loss))
        with (- ((k * k) * k * s ^ 3 / 4 + 9 * k * s ^ 3 / 4)) by field.
      rewrite H3.
      assert (0 < k * s ^ 3) by (apply Rmult_lt_0_compat; [| apply pow_lt]; assumption).
      lra.
Qed.



(** ** Sample evaluations *)

(** A drive above the threshold: at detuning [2], with both losses [1 / 2]
    and [KXin = 5 / 2], the cubic is [(y - 1/2) (y - 1) (y - 5/2)];
    [np.min] returns the lowest root and [np.max] the highest. *)
Example kerr_detuning_three_roots :
  snd (kerr_detuning (1 / 2) (1 / 2) (5 / 2) np_min (PyFloat 2))
  = Ok (Scalar (Some (1 / 2)))
  /\ snd (kerr_detuning (1 / 2) (1 / 2) (5 / 2) np_max (PyFloat 2))
     = Ok (Scalar (Some (5 / 2))).
Proof.
  assert (Hpos : 0 < delta_of (delta0_of (coef_b 2) (coef_c (1 / 2) (1 / 2) 2))
                              (delta1_of (1 / 2) (5 / 2) (coef_b 2)
                                         (coef_c (1 / 2) (1 / 2) 2))).
  { unfold delta_of, delta0_of, delta1_of, coef_b, coef_c, coef_d. lra. }
  destruct (three_distinct_roots (1 / 2) (5 / 2) (coef_b 2)
                                 (coef_c (1 / 2) (1 / 2) 2) Hpos)
    as (r0 & r1 & r2 & E0 & E1 & E2 & R0 & R1 & R2 & H02 & H21).
  assert (Hroot : forall y,
             cubic (coef_b 2) (coef_c (1 / 2) (1 / 2) 2) (coef_d (1 / 2) (5 / 2)) y
             = 0 -> y = 1 / 2 \/ y = 1 \/ y = 5 / 2).
  { intros y Hy. unfold cubic, coef_b, coef_c, coef_d in Hy.
    assert (Hf : (y - 1 / 2) * ((y - 1) * (y - 5 / 2)) = 0)
      by (rewrite <- Hy; field).
    apply Rmult_integral in Hf. destruct Hf as [Hf | Hf]; [lra |].
    apply Rmult_integral in Hf. destruct Hf as [Hf | Hf]; lra. }
  assert (Hr0 : r0 = 1 / 2)
    by (destruct (Hroot r0 R0) as [|[|]], (Hroot r1 R1) as [|[|]],
          (Hroot r2 R2) as [|[|]]; lra).
  assert (Hr1 : r1 = 5 / 2)
    by (destruct (Hroot r0 R0) as [|[|]], (Hroot r1 R1) as [|[|]],
          (Hroot r2 R2) as [|[|]]; lra).
  assert (Hr2 : r2 = 1)
    by (destruct (Hroot r0 R0) as [|[|]], (Hroot r1 R1) as [|[|]],
          (Hroot r2 R2) as [|[|]]; lra).
  subst r0 r1 r2.
  assert (Hch : forall f r,
             chosen (1 / 2) (1 / 2) (5 / 2) (folds f) 2 r ->
             r = f (f (Some (1 / 2)) (Some (5 / 2))) (Some 1)).
  { intros f r. unfold chosen, candidates, classify, delta_at, delta0_at,
      delta1_at.
    destruct (Rlt_dec _ 0) as [Hn | _]; [lra |].
    destruct (Rlt_dec 0 _) as [_ | Hn]; [| contradiction].
    rewrite E0, E1, E2. simpl. auto. }
  split.
  - destruct (kerr_detuning_aligned (1 / 2) (1 / 2) (5 / 2) np_min (folds fmin)
                (PyFloat 2) (reduce_axis0_folds fmin)) as (o & -> & _ & H).
    destruct o as [r | rs]; [| contradiction].
    apply Hch in H. subst r. do 2 f_equal. simpl. f_equal.
    unfold Rmin. repeat destruct (Rle_dec _ _); lra.
  - destruct (kerr_detuning_aligned (1 / 2) (1 / 2) (5 / 2) np_max (folds fmax)
                (PyFloat 2) (reduce_axis0_folds fmax)) as (o & -> & _ & H).
    destruct o as [r | rs]; [| contradiction].
    apply Hch in H. subst r. do 2 f_equal. simpl. f_equal.
    unfold Rmax. repeat destruct (Rle_dec _ _); lra.
Qed.

(** On resonance at zero drive the root is zero. *)
Example kerr_detuning_on_resonance :
  snd (kerr_detuning (1 / 2) (1 / 2) 0 np_min (PyFloat 0))
  = Ok (Scalar (Some 0)).
Proof.
  cbn [kerr_detuning snd].
  rewrite kerr_roots_one_real
    by (constructor; [apply delta_zero_drive; lra | constructor]).
  cbn [map bind hd]. rewrite one_real_zero_drive; [reflexivity | lra |].
  intros H. apply degenerate_zero_drive_iff in H; [| lra].
  pose proof sqrt3_pos. lra.
Qed.

(** ** Below, at and above the bifurcation drive *)




Lemma delta1_at_expand lc li K x :
  delta1_at lc li K x
  = 2 * x ^ 3 + 9 / 2 * x * (lc + li) ^ 2 - 27 * K * lc.
Proof. unfold delta1_at, delta1_of, coef_b, coef_c, coef_d. field. Qed.

Lemma delta0_at_expand lc li x :
  delta0_at lc li x = x ^ 2 - 3 * (lc + li) ^ 2 / 4.
Proof. unfold delta0_at, delta0_of, coef_b, coef_c. field. Qed.






(** The value of the threshold in the form used below. *)
Lemma threshold_value lc li Kb :
  0 < lc -> kerr_detuning_at_bifurcation lc li = Some Kb ->
  Kb = sqrt 3 * (lc + li) ^ 3 / (9 * lc).
Proof.
  intros Hc E. rewrite bifurcation_value in E by lra.
  inversion E as [E']. rewrite Rpower_3_m32.
  pose proof sqrt3_sq as H3. pose proof sqrt3_pos as H3p.
  set (k := sqrt 3) in *.
  replace (k * (lc + li) ^ 3 / (9 * lc))
    with ((k * k) * (li + lc) ^ 3 / (9 * k * lc)) by (field; lra).
  rewrite H3. field. lra.
Qed.


(** The threshold for [coupling_loss = 1] and [internal_loss = 0] lies
    between [1 / 10] and [1]. *)
Lemma threshold_unit_losses :
  kerr_detuning_at_bifurcation 1 0 = Some (/ (3 * sqrt 3) * (0 + 1) ^ 3 / 1)
  /\ 1 / 10 < / (3 * sqrt 3) * (0 + 1) ^ 3 / 1 < 1.
Proof.
  pose proof sqrt3_sq as H3. pose proof sqrt3_pos as H3p.
  split.
  - rewrite bifurcation_value by lra. now rewrite Rpower_3_m32.
  - set (k := sqrt 3) in *.
    assert (Hk1 : 1 < k) by nra.
    assert (Hk2 : k < 2) by nra.
    replace (/ (3 * k) * (0 + 1) ^ 3 / 1) with (/ (3 * k)) by (field; lra).
    split.
    + replace (1 / 10) with (/ 10) by field.
      apply Rinv_lt_contravar; [apply Rmult_lt_0_compat |]; lra.
    + rewrite <- Rinv_1. apply Rinv_lt_contravar; lra.
Qed.





(** Above the threshold [delta1] vanishes at a detuning beyond the upper
    edge of the band [delta0 <= 0]; the cubic has three distinct real roots
    there. *)
Lemma three_roots_above_threshold lc li K :
  0 < lc -> 0 <= li ->
  sqrt 3 * (lc + li) ^ 3 / (9 * lc) < K ->
  exists x, 0 < delta_at lc li K x.
Proof.
  intros Hc Hi HKb.
  pose proof sqrt3_sq as H3. pose proof sqrt3_pos as H3p.
  set (k := sqrt 3) in *. set (s := lc + li) in *.
  assert (Hs : 0 < s) by (unfold s; lra).
  set (a := k / 2 * s).
  assert (Ha : 0 < a) by (unfold a; nra).
  assert (Hs2 : s ^ 2 = 4 / 3 * a ^ 2).
  { unfold a.
    replace (4 / 3 * (k / 2 * s) ^ 2) with ((k * k) * s ^ 2 / 3) by field.
    rewrite H3. field. }
  set (m := 27 * K * lc).
  assert (Hmb : 8 * a ^ 3 < m).
  { unfold m, a. apply Rmult_lt_compat_r with (r := 9 * lc) in HKb; [| lra].
    replace (k * s ^ 3 / (9 * lc) * (9 * lc)) with (k * s ^ 3) in HKb
      by (field; lra).
    replace (8 * (k / 2 * s) ^ 3) with ((k * k) * k * s ^ 3) by field.
    rewrite H3. lra. }
  assert (Ha2 : 0 < a ^ 2) by (apply pow_lt; assumption).
  assert (Ha3 : 0 < a ^ 3) by (apply pow_lt; assumption).
  set (f := fun x : R => 2 * x ^ 3 + 6 * a ^ 2 * x - m).
  assert (Hcont : continuity f).
  { unfold f. reg. }
  set (y := a + m / (6 * a ^ 2)).
  assert (Hy : a < y).
  { unfold y. assert (0 < m / (6 * a ^ 2)) by (apply Rdiv_lt_0_compat; lra). lra. }
  assert (Hfa : f a < 0) by (unfold f; lra).
  assert (Hfy : 0 < f y).
  { unfold f.
    assert (0 < y ^ 3) by (apply pow_lt; lra).
    assert (6 * a ^ 2 * y = 6 * a ^ 3 + m) by (unfold y; field; lra).
    lra. }
  destruct (IVT f a y Hcont Hy Hfa Hfy) as (x & [Hx1 Hx2] & Hfx).
  exists x.
  assert (Hxa : a < x).
  { destruct (Req_dec_T x a) as [E | E]; [rewrite E in Hfx; lra | lra]. }
  assert (H1 : delta1_at lc li K x = 0).
  { rewrite delta1_at_expand. fold s. rewrite Hs2. unfold f in Hfx.
    fold m. lra. }
  assert (H0 : 0 < delta0_at lc li x).
  { rewrite delta0_at_expand. fold s. rewrite Hs2. nra. }
  unfold delta_at, delta_of. rewrite H1.
  assert (0 < delta0_at lc li x ^ 3) by (apply pow_lt; assumption).
  lra.
Qed.


(** Above the bifurcation drive some detuning has three distinct real
    roots, and [np.min] and [np.max] return different ones there. *)
Theorem bistable_above_bifurcation coupling_loss internal_loss KXin Kb :
  0 < coupling_loss -> 0 <= internal_loss ->
  kerr_detuning_at_bifurcation coupling_loss internal_loss = Some Kb ->
  Kb < KXin ->
  exists x y1 y2,
    snd (kerr_detuning coupling_loss internal_loss KXin np_min (PyFloat x))
    = Ok (Scalar (Some y1))
    /\ snd (kerr_detuning coupling_loss internal_loss KXin np_max (PyFloat x))
       = Ok (Scalar (Some y2))
    /\ y1 < y2.
Proof.
  intros Hc Hi HKb Hlt.
  apply threshold_value in HKb; [| assumption]. subst Kb.
  destruct (three_roots_above_threshold coupling_loss internal_loss KXin
              Hc Hi Hlt) as (x & Hx).
  destruct (kerr_roots_chosen coupling_loss internal_loss KXin np_min
              (folds fmin) (reduce_axis0_folds fmin) [x])
    as (lo & Elo & Hlo).
  destruct (kerr_roots_chosen coupling_loss internal_loss KXin np_max
              (folds fmax) (reduce_axis0_folds fmax) [x])
    as (hi & Ehi & Hhi).
  inversion Hlo as [| ? r1 ? lo' H1 Hlo' ]; subst.
  inversion Hlo'; subst.
  inversion Hhi as [| ? r2 ? hi' H2 Hhi' ]; subst.
  inversion Hhi'; subst.
  destruct (chosen_min_max _ _ _ _ _ _ H1 H2 (or_intror Hx))
    as (y1 & y2 & -> & -> & Hlt12 & _).
  exists x, y1, y2. cbn [kerr_detuning snd]. rewrite Elo, Ehi.
  cbn [bind hd]. repeat split; try reflexivity. assumption.
Qed.

(** The instance with [coupling_loss = 1], [internal_loss = 0] and the drive
    [1], above the threshold [1 / (3 sqrt 3)]. *)
Lemma bistable_witness :
  exists x y1 y2,
    snd (kerr_detuning 1 0 1 np_min (PyFloat x)) = Ok (Scalar (Some y1))
    /\ snd (kerr_detuning 1 0 1 np_max (PyFloat x)) = Ok (Scalar (Some y2))
    /\ y1 < y2.
Proof.
  destruct threshold_unit_losses as [E [H1 H2]].
  apply (bistable_above_bifurcation 1 0 1
           (/ (3 * sqrt 3) * (0 + 1) ^ 3 / 1)); try lra.
  exact E.
Defined.

(** ** Arrays against scalars; zero drive *)

(** What a reducing tie-break leaves at one point is a function of the
    point. *)
Lemma chosen_folds_functional lc li K f x r r' :
  chosen lc li K (folds f) x r -> chosen lc li K (folds f) x r' -> r = r'.
Proof.
  unfold chosen.
  destruct (classify _ _); intros H H'.
  - congruence.
  - congruence.
  - unfold folds in *. destruct (candidates lc li K x); [tauto | congruence].
  - unfold folds in *. destruct (candidates lc li K x); [tauto | congruence].
Qed.

(** The call on an array agrees, entry by entry, with the calls on the
    single detunings, for a tie-break that reduces the stacked candidates
    along axis 0 with a binary ufunc. *)
Theorem kerr_detuning_pointwise coupling_loss internal_loss KXin f xs :
  exists rs,
    snd (kerr_detuning coupling_loss internal_loss KXin (reduce_axis0 f)
                       (Array1 xs)) = Ok (Array rs)
    /\ Forall2 (fun x r =>
                  snd (kerr_detuning coupling_loss internal_loss KXin
                                     (reduce_axis0 f) (PyFloat x))
                  = Ok (Scalar r))
               xs rs.
Proof.
  destruct (kerr_roots_chosen coupling_loss internal_loss KXin (reduce_axis0 f)
              (folds f) (reduce_axis0_folds f) xs) as (rs & E & H).
  exists rs. cbn [kerr_detuning snd]. rewrite E. split; [reflexivity |].
  revert H. apply Forall2_impl. intros x r Hx.
  destruct (kerr_roots_chosen coupling_loss internal_loss KXin (reduce_axis0 f)
              (folds f) (reduce_axis0_folds f) [x]) as (rs1 & E1 & H1).
  rewrite E1. cbn [bind].
  inversion H1 as [| ? r1 ? rs1' Hr1 Hrest]; subst.
  cbn [hd].
  rewrite (chosen_folds_functional _ _ _ _ _ _ _ Hr1 Hx). reflexivity.
Qed.



(** ** The shunt models: magnitude, symmetry and inversion *)

(** On resonance the linear model is
    [1 - (1 + 1j asymmetry) coupling_loss / (coupling_loss + internal_loss)];
    without asymmetry this is the real dip depth
    [internal_loss / (coupling_loss + internal_loss)]. *)
Theorem shunt_on_resonance
        resonance_frequency internal_loss coupling_loss asymmetry :
  resonance_frequency <> 0 -> 0 < coupling_loss -> 0 <= internal_loss ->
  shunt (PyFloat resonance_frequency) resonance_frequency internal_loss
        coupling_loss asymmetry
  = Scalar (Some (mkC (internal_loss / (coupling_loss + internal_loss))
                      (- (asymmetry * coupling_loss
                          / (coupling_loss + internal_loss))))).
Proof.
  intros Hrf Hc Hi.
  assert (Hq : 0 <= internal_loss / coupling_loss)
    by (apply Rmult_le_pos; [| apply Rlt_le, Rinv_0_lt_compat]; lra).
  unfold shunt. rewrite shunt_at_some by lra.
  do 2 f_equal. unfold lorentzian.
  apply C_eq; cbn [re im]; field; lra.
Qed.

(** The instance with [resonance_frequency = 2] and both losses [1]. *)
Lemma shunt_on_resonance_witness :
  shunt (PyFloat 2) 2 1 1 0
  = Scalar (Some (mkC (1 / (1 + 1)) (- (0 * 1 / (1 + 1))))).
Proof. apply (shunt_on_resonance 2 1 1 0); lra. Defined.

(** The squared magnitude of the model without asymmetry. *)
Lemma lorentzian_norm2 li lc x :
  0 < lc -> 0 <= li ->
  Cnorm2 (lorentzian li lc 0 x)
  = (li ^ 2 + 4 * x ^ 2) / ((lc + li) ^ 2 + 4 * x ^ 2).
Proof.
  intros Hc Hi. unfold Cnorm2, lorentzian; cbn [re im].
  assert (0 < (lc + li) ^ 2) by (apply pow_lt; lra).
  pose proof (pow2_ge_0 x).
  assert (H1 : (lc + li) ^ 2 + 4 * x ^ 2 <> 0) by lra.
  assert (H2 : (1 + li / lc) ^ 2 + (2 * x / lc) ^ 2 <> 0).
  { replace ((1 + li / lc) ^ 2 + (2 * x / lc) ^ 2)
      with (((lc + li) ^ 2 + 4 * x ^ 2) / lc ^ 2) by (field; lra).
    assert (0 < lc ^ 2) by (apply pow_lt; lra).
    apply Rgt_not_eq. apply Rdiv_lt_0_compat; lra. }
  field. repeat split; try assumption; lra.
Qed.

(** The magnitude of the model without asymmetry, as a function of the
    detuning: below one, and lowest at zero detuning. *)
Lemma lorentzian_abs_bounds li lc x :
  0 < lc -> 0 <= li ->
  li / (lc + li) <= Cabs (lorentzian li lc 0 x) < 1
  /\ (Cabs (lorentzian li lc 0 x) = li / (lc + li) <-> x = 0).
Proof.
  intros Hc Hi.
  unfold Cabs. rewrite lorentzian_norm2 by assumption.
  set (s := lc + li).
  assert (Hs : 0 < s) by (unfold s; lra).
  assert (Hs2 : 0 < s ^ 2) by (apply pow_lt; assumption).
  pose proof (pow2_ge_0 x) as Hx2.
  pose proof (pow2_ge_0 li) as Hl2.
  assert (Hls : li ^ 2 < s ^ 2) by (unfold s; nra).
  set (N := (li ^ 2 + 4 * x ^ 2) / (s ^ 2 + 4 * x ^ 2)).
  assert (Hd : 0 <= li / s)
    by (apply Rmult_le_pos; [| apply Rlt_le, Rinv_0_lt_compat]; lra).
  assert (Hdip : li / s = sqrt ((li / s) ^ 2)).
  { replace ((li / s) ^ 2) with (Rsqr (li / s)) by (unfold Rsqr; ring).
    symmetry. apply sqrt_Rsqr. assumption. }
  assert (HN : N - (li / s) ^ 2
               = 4 * x ^ 2 * (s ^ 2 - li ^ 2) / (s ^ 2 * (s ^ 2 + 4 * x ^ 2)))
    by (unfold N; field; split; lra).
  assert (Hpos : 0 < s ^ 2 * (s ^ 2 + 4 * x ^ 2))
    by (apply Rmult_lt_0_compat; lra).
  assert (Hge : (li / s) ^ 2 <= N).
  { assert (0 <= 4 * x ^ 2 * (s ^ 2 - li ^ 2)
                 / (s ^ 2 * (s ^ 2 + 4 * x ^ 2))).
    { apply Rmult_le_pos; [| apply Rlt_le, Rinv_0_lt_compat; assumption].
      apply Rmult_le_pos; lra. }
    lra. }
  assert (Hlt : N < 1).
  { unfold N. apply Rmult_lt_reg_r with (s ^ 2 + 4 * x ^ 2); [lra |].
    replace ((li ^ 2 + 4 * x ^ 2) / (s ^ 2 + 4 * x ^ 2) * (s ^ 2 + 4 * x ^ 2))
      with (li ^ 2 + 4 * x ^ 2) by (field; lra).
    lra. }
  assert (HN0 : 0 <= N) by (pose proof (pow2_ge_0 (li / s)); lra).
  split; [split |].
  - rewrite Hdip. apply sqrt_le_1; [apply pow2_ge_0 | assumption | assumption].
  - rewrite <- sqrt_1. apply sqrt_lt_1; lra.
  - split.
    + intros E. rewrite Hdip in E.
      apply sqrt_inj in E; [| assumption | apply pow2_ge_0].
      assert (Hz : 4 * x ^ 2 * (s ^ 2 - li ^ 2)
                   / (s ^ 2 * (s ^ 2 + 4 * x ^ 2)) = 0) by lra.
      assert (Hz' : 4 * x ^ 2 * (s ^ 2 - li ^ 2) = 0).
      { apply Rmult_eq_reg_r with (/ (s ^ 2 * (s ^ 2 + 4 * x ^ 2)));
          [unfold Rdiv in Hz; lra | apply Rinv_neq_0_compat; lra]. }
      assert (Hx0 : x ^ 2 = 0).
      { apply Rmult_integral in Hz'. destruct Hz' as [Hz' | Hz']; lra. }
      destruct (Req_dec_T x 0) as [|Hne]; [assumption |].
      apply sq_pos in Hne. lra.
    + intros E. rewrite Hdip. f_equal. unfold N. rewrite E. field. lra.
Qed.

Lemma detuning_zero_iff rf f : rf <> 0 -> f / rf - 1 = 0 <-> f = rf.
Proof.
  intros Hrf. split.
  - intros Hx. apply Rmult_eq_reg_r with (/ rf);
      [| apply Rinv_neq_0_compat; assumption].
    rewrite Rinv_r by assumption. unfold Rdiv in Hx. lra.
  - intros ->. field. assumption.
Qed.

(** Without asymmetry the magnitude of the linear model stays below one and
    is lowest on resonance, where it is the dip depth. *)
Theorem shunt_magnitude_bounds
        resonance_frequency internal_loss coupling_loss frequency :
  resonance_frequency <> 0 -> 0 < coupling_loss -> 0 <= internal_loss ->
  exists z,
    shunt_at resonance_frequency internal_loss coupling_loss 0 frequency
    = Some z
    /\ internal_loss / (coupling_loss + internal_loss) <= Cabs z < 1
    /\ (Cabs z = internal_loss / (coupling_loss + internal_loss)
        <-> frequency = resonance_frequency).
Proof.
  intros Hrf Hc Hi.
  assert (Hq : 0 <= internal_loss / coupling_loss)
    by (apply Rmult_le_pos; [| apply Rlt_le, Rinv_0_lt_compat]; lra).
  rewrite shunt_at_some by lra.
  eexists. split; [reflexivity |].
  destruct (lorentzian_abs_bounds internal_loss coupling_loss
              (frequency / resonance_frequency - 1) Hc Hi) as [Hb He].
  split; [exact Hb |].
  rewrite He. apply detuning_zero_iff. assumption.
Qed.

(** The instance with [resonance_frequency = 2], both losses [1] and the
    frequency [3]. *)
Lemma shunt_magnitude_bounds_witness :
  exists z,
    shunt_at 2 1 1 0 3 = Some z
    /\ 1 / (1 + 1) <= Cabs z < 1
    /\ (Cabs z = 1 / (1 + 1) <-> 3 = 2).
Proof. apply (shunt_magnitude_bounds 2 1 1 3); lra. Defined.

(** Without asymmetry the linear model takes conjugate values at
    frequencies placed symmetrically about the resonance. *)
Theorem shunt_symmetric_about_resonance
        resonance_frequency internal_loss coupling_loss x :
  resonance_frequency <> 0 -> 0 < coupling_loss -> 0 <= internal_loss ->
  exists z,
    shunt_at resonance_frequency internal_loss coupling_loss 0
             (resonance_frequency * (1 + x)) = Some z
    /\ shunt_at resonance_frequency internal_loss coupling_loss 0
                (resonance_frequency * (1 - x))
       = Some (mkC (re z) (- im z)).
Proof.
  intros Hrf Hc Hi.
  assert (Hq : 0 <= internal_loss / coupling_loss)
    by (apply Rmult_le_pos; [| apply Rlt_le, Rinv_0_lt_compat]; lra).
  rewrite !shunt_at_some by lra.
  eexists. split; [reflexivity |]. f_equal.
  replace (resonance_frequency * (1 + x) / resonance_frequency - 1) with x
    by (field; assumption).
  replace (resonance_frequency * (1 - x) / resonance_frequency - 1) with (- x)
    by (field; assumption).
  assert (Hn : (1 + internal_loss / coupling_loss) ^ 2
               + (2 * x / coupling_loss) ^ 2 <> 0).
  { assert (0 < (1 + internal_loss / coupling_loss) ^ 2)
      by (apply pow_lt; lra).
    pose proof (pow2_ge_0 (2 * x / coupling_loss)). lra. }
  unfold lorentzian. apply C_eq; cbn [re im].
  - f_equal. f_equal; [ring | unfold Rdiv; ring].
  - assert (Hm : (1 + internal_loss / coupling_loss) ^ 2
                 + (2 * - x / coupling_loss) ^ 2
                 = (1 + internal_loss / coupling_loss) ^ 2
                   + (2 * x / coupling_loss) ^ 2) by (unfold Rdiv; ring).
    rewrite Hm. unfold Rdiv. ring.
Qed.

(** The instance with [resonance_frequency = 2], both losses [1] and the
    frequencies [3] and [1]. *)
Lemma shunt_symmetric_witness :
  exists z,
    shunt_at 2 1 1 0 (2 * (1 + 1 / 2)) = Some z
    /\ shunt_at 2 1 1 0 (2 * (1 - 1 / 2)) = Some (mkC (re z) (- im z)).
Proof. apply (shunt_symmetric_about_resonance 2 1 1 (1 / 2)); lra. Defined.

(** The nonlinear model at a frequency is the linear model at that
    frequency lowered by [resonance_frequency] times the root returned by
    [kerr_detuning]. *)
Theorem shunt_nonlinear_is_shifted_shunt
        choose frequency resonance_frequency internal_loss coupling_loss
        asymmetry KXin y :
  resonance_frequency <> 0 ->
  snd (kerr_detuning coupling_loss internal_loss KXin choose
                     (PyFloat (frequency / resonance_frequency - 1)))
  = Ok (Scalar (Some y)) ->
  shunt_nonlinear choose (PyFloat frequency) resonance_frequency
                  internal_loss coupling_loss asymmetry KXin
  = Ok (shunt (PyFloat (frequency - resonance_frequency * y))
              resonance_frequency internal_loss coupling_loss asymmetry).
Proof.
  intros Hrf Hk. unfold shunt_nonlinear.
  destruct (Req_dec_T resonance_frequency 0) as [|_]; [contradiction |].
  rewrite Hk. cbn [bind shunt]. do 2 f_equal.
  rewrite shunt_at_nonlinear_at by assumption.
  unfold nonlinear_at. cbn [fsub lift2].
  replace ((frequency - resonance_frequency * y) / resonance_frequency - 1 - 0)
    with (frequency / resonance_frequency - 1 - y) by (field; assumption).
  reflexivity.
Qed.

(** The instance at detuning [2] with both losses [1 / 2] and the drive
    [5 / 2], where [np.min] returns the root [1 / 2]. *)
Lemma shunt_nonlinear_is_shifted_witness :
  shunt_nonlinear np_min (PyFloat 3) 1 (1 / 2) (1 / 2) 0 (5 / 2)
  = Ok (shunt (PyFloat (3 - 1 * (1 / 2))) 1 (1 / 2) (1 / 2) 0).
Proof.
  apply (shunt_nonlinear_is_shifted_shunt np_min 3 1 (1 / 2) (1 / 2) 0 (5 / 2)
           (1 / 2)); [lra |].
  replace (3 / 1 - 1) with 2 by field.
  exact (proj1 kerr_detuning_three_roots).
Defined.

(** Without asymmetry the magnitude of the nonlinear model stays below one
    and is lowest where the detuning equals the root returned by
    [kerr_detuning]; the depth of the dip is that of the linear model. *)
Theorem shunt_nonlinear_magnitude_bounds
        choose frequency resonance_frequency internal_loss coupling_loss
        KXin y :
  resonance_frequency <> 0 -> 0 < coupling_loss -> 0 <= internal_loss ->
  snd (kerr_detuning coupling_loss internal_loss KXin choose
                     (PyFloat (frequency / resonance_frequency - 1)))
  = Ok (Scalar (Some y)) ->
  exists z,
    shunt_nonlinear choose (PyFloat frequency) resonance_frequency
                    internal_loss coupling_loss 0 KXin
    = Ok (Scalar (Some z))
    /\ internal_loss / (coupling_loss + internal_loss) <= Cabs z < 1
    /\ (Cabs z = internal_loss / (coupling_loss + internal_loss)
        <-> frequency / resonance_frequency - 1 = y).
Proof.
  intros Hrf Hc Hi Hk.
  assert (Hq : 0 <= internal_loss / coupling_loss)
    by (apply Rmult_le_pos; [| apply Rlt_le, Rinv_0_lt_compat]; lra).
  unfold shunt_nonlinear.
  destruct (Req_dec_T resonance_frequency 0) as [|_]; [contradiction |].
  rewrite Hk. cbn [bind]. rewrite nonlinear_at_some by lra.
  eexists. split; [reflexivity |].
  destruct (lorentzian_abs_bounds internal_loss coupling_loss
              (frequency / resonance_frequency - 1 - y) Hc Hi) as [Hb He].
  split; [exact Hb |]. rewrite He. split; lra.
Qed.

(** The same instance. *)
Lemma shunt_nonlinear_magnitude_witness :
  exists z,
    shunt_nonlinear np_min (PyFloat 3) 1 (1 / 2) (1 / 2) 0 (5 / 2)
    = Ok (Scalar (Some z))
    /\ 1 / 2 / (1 / 2 + 1 / 2) <= Cabs z < 1
    /\ (Cabs z = 1 / 2 / (1 / 2 + 1 / 2) <-> 3 / 1 - 1 = 1 / 2).
Proof.
  apply (shunt_nonlinear_magnitude_bounds np_min 3 1 (1 / 2) (1 / 2) (5 / 2)
           (1 / 2)); try lra.
  replace (3 / 1 - 1) with 2 by field.
  exact (proj1 kerr_detuning_three_roots).
Defined.

Lemma Cnorm2_pos z : z <> mkC 0 0 -> 0 < Cnorm2 z.
Proof.
  destruct z as [u v]. unfold Cnorm2; cbn [re im]. intros H.
  destruct (Req_dec_T u 0) as [Eu | Eu].
  - destruct (Req_dec_T v 0) as [Ev | Ev]; [subst; congruence |].
    assert (0 < v * v) by nra. nra.
  - assert (0 < u * u) by nra. nra.
Qed.

(** [invert] at one scattering value other than [1]. *)
Lemma invert_at_value lc a s :
  s <> mkC 1 0 ->
  let w := Csub (of_real 1) s in
  let q := mkC ((re w + a * im w) / Cnorm2 w)
               ((a * re w - im w) / Cnorm2 w) in
  invert_at lc a (Some s)
  = (Some (lc * im q / 2), Some (lc * (re q - 1))).
Proof.
  intros Hs w q.
  assert (Hw : Cnorm2 w <> 0).
  { apply Rgt_not_eq. apply Cnorm2_pos. unfold w, Csub, of_real; cbn [re im].
    intros E. apply Hs. inversion E. destruct s as [u v]; cbn [re im] in *.
    f_equal; lra. }
  unfold invert_at.
  cbn [cadd cmul cof fsub lift2 clift2 option_map cdiv csub].
  fold w. rewrite (Cdiv_eq _ _ q Hw).
  - cbn [cadd cmul cof fsub lift2 clift2 option_map cdiv csub cimag creal].
    unfold Cmul, Csub, of_real; cbn [re im].
    rewrite fdiv_some by lra.
    apply f_equal2; apply f_equal; unfold q; cbn [re im]; unfold Rdiv; ring.
  - unfold q, Cmul, Cadd, Ci, of_real; cbn [re im].
    unfold Cnorm2 in *. apply C_eq; cbn [re im]; field; assumption.
Qed.

(** The model reproduces every scattering value other than [1] at the
    detuning and internal loss that [invert] returns for it. *)
Theorem shunt_of_invert
        resonance_frequency coupling_loss asymmetry scattering_data :
  resonance_frequency <> 0 -> coupling_loss <> 0 ->
  scattering_data <> mkC 1 0 ->
  exists detuning internal_loss,
    invert_at coupling_loss asymmetry (Some scattering_data)
    = (Some detuning, Some internal_loss)
    /\ shunt_at resonance_frequency internal_loss coupling_loss asymmetry
                (resonance_frequency * (1 + detuning))
       = Some scattering_data.
Proof.
  intros Hrf Hc Hs.
  rewrite invert_at_value by assumption.
  set (w := Csub (of_real 1) scattering_data).
  assert (Hw : 0 < Cnorm2 w).
  { apply Cnorm2_pos. unfold w, Csub, of_real; cbn [re im].
    intros E. apply Hs. inversion E.
    destruct scattering_data as [u v]; cbn [re im] in *. f_equal; lra. }
  set (q := mkC ((re w + asymmetry * im w) / Cnorm2 w)
                ((asymmetry * re w - im w) / Cnorm2 w)).
  exists (coupling_loss * im q / 2), (coupling_loss * (re q - 1)).
  split; [reflexivity |].
  unfold shunt_at. rewrite fdiv_some by assumption.
  cbn [cadd cmul cof fsub lift2 clift2 option_map cdiv csub].
  rewrite Cdiv_real by assumption.
  cbn [cadd cmul cof fsub lift2 clift2 option_map cdiv csub].
  assert (Hq : Cadd (of_real 1)
                 (mkC (re (Cadd (of_real (coupling_loss * (re q - 1)))
                         (Cmul (Cscale 2 Ci)
                            (of_real (resonance_frequency
                                      * (1 + coupling_loss * im q / 2)
                                      / resonance_frequency - 1))))
                       / coupling_loss)
                      (im (Cadd (of_real (coupling_loss * (re q - 1)))
                         (Cmul (Cscale 2 Ci)
                            (of_real (resonance_frequency
                                      * (1 + coupling_loss * im q / 2)
                                      / resonance_frequency - 1))))
                       / coupling_loss))
               = q).
  { unfold Cadd, Cmul, Cscale, Ci, of_real; cbn [re im].
    apply C_eq; cbn [re im]; field; lra. }
  rewrite Hq.
  assert (Hqn : 0 < Cnorm2 q).
  { assert (E : Cnorm2 q = (1 + asymmetry ^ 2) / Cnorm2 w).
    { unfold q, Cnorm2; cbn [re im]. unfold Cnorm2 in Hw. field. lra. }
    rewrite E. apply Rdiv_lt_0_compat; [| assumption].
    pose proof (pow2_ge_0 asymmetry). lra. }
  rewrite (Cdiv_eq _ _ w).
  - cbn [csub clift2]. f_equal. unfold w, Csub, of_real; cbn [re im].
    apply C_eq; cbn [re im]; ring.
  - lra.
  - unfold q, Cmul, Cadd, Ci, of_real; cbn [re im].
    unfold Cnorm2 in *. apply C_eq; cbn [re im]; field; lra.
Qed.

(** The instance of the scattering value [1 / 2]. *)
Lemma shunt_of_invert_witness :
  exists detuning internal_loss,
    invert_at 1 0 (Some (mkC (1 / 2) 0)) = (Some detuning, Some internal_loss)
    /\ shunt_at 2 internal_loss 1 0 (2 * (1 + detuning))
       = Some (mkC (1 / 2) 0).
Proof.
  apply (shunt_of_invert 2 1 0 (mkC (1 / 2) 0)); try lra.
  intros E. inversion E. lra.
Defined.

(** [invert] returns finite numbers exactly for scattering values other
    than [1]. *)
Theorem invert_finite_iff coupling_loss asymmetry scattering_data :
  (exists detuning internal_loss,
      invert_at coupling_loss asymmetry (Some scattering_data)
      = (Some detuning, Some internal_loss))
  <-> scattering_data <> mkC 1 0.
Proof.
  split.
  - intros (x & li & E) ->.
    unfold invert_at in E.
    cbn [cadd cmul cof fsub lift2 clift2 option_map cdiv csub] in E.
    unfold Cdiv in E.
    destruct (Req_dec_T _ 0) as [_ | Hne].
    + cbn in E. discriminate.
    + apply Hne. unfold Cnorm2, Csub, of_real; cbn [re im]. ring.
  - intros Hs. rewrite invert_at_value by assumption. eauto.
Qed.

(** ** The guesser: short sweeps, smoothing and bounds *)

Import ShuntNonlinear.

(** With fewer than ten points the smoothing kernel is empty and the
    convolution refuses it. *)
Theorem guess_smooth_short_sweep_raises frequency data :
  length data = length frequency ->
  (length frequency < 10)%nat ->
  guess_smooth frequency data = Raise ValueError.
Proof.
  intros Hd Hn. unfold guess_smooth.
  destruct data as [|z data'] eqn:Ed; [reflexivity |].
  rewrite <- Ed in *.
  destruct (argmin_defined (map Cabs data)) as (i & -> & Hi).
  { rewrite Ed. discriminate. }
  rewrite length_map, Hd in Hi. cbn [bind].
  destruct (index_defined frequency i Hi) as (rf & -> & _). cbn [bind].
  unfold linewidth_of. rewrite (Nat.div_small _ 10) by assumption.
  reflexivity.
Qed.

(** The instance of a three-point sweep. *)
Lemma guess_smooth_short_sweep_witness :
  guess_smooth [1; 2; 3] [mkC 1 0; mkC (1 / 2) 0; mkC 1 0] = Raise ValueError.
Proof.
  apply (guess_smooth_short_sweep_raises [1; 2; 3]
           [mkC 1 0; mkC (1 / 2) 0; mkC 1 0]); cbn [length]; lia.
Defined.

Lemma map_Rmult_1 l : map (Rmult 1) l = l.
Proof. induction l as [|x l IH]; simpl; [reflexivity |]. rewrite IH. f_equal. ring. Qed.

Lemma padd_nil_r l : padd l [] = l.
Proof. destruct l; reflexivity. Qed.

(** A kernel with the single tap [1] leaves the data as they are. *)
Lemma convolve_same_unit v : v <> [] -> convolve_same [1] v = Ok v.
Proof.
  intros Hv. destruct v as [|y v']; [congruence |].
  unfold convolve_same.
  cbn [length conv_full map padd].
  rewrite padd_nil_r, map_Rmult_1.
  replace (1 * y + 0) with y by ring.
  replace (Nat.min 1 (S (length v'))) with 1%nat by lia.
  replace (Nat.max 1 (S (length v'))) with (S (length v')) by lia.
  cbn [Nat.sub Nat.div Nat.divmod fst skipn].
  change (S (length v')) with (length (y :: v')).
  now rewrite firstn_all.
Qed.

(** For ten to nineteen points the Gaussian kernel has one tap, which the
    normalisation makes [1]: the data are not smoothed, and the linewidth
    is read off the first differences of [|data|]. *)
Theorem linewidth_unsmoothed frequency data :
  (10 <= length frequency < 20)%nat -> data <> [] ->
  linewidth_of frequency data
  = (derivative <- convolve_same [1; -1] (map Cabs data) ;;
     imax <- argmax (trim 1 derivative) ;;
     fhi <- index frequency imax ;;
     imin <- argmin (trim 1 derivative) ;;
     flo <- index frequency imin ;;
     Ok (fhi - flo)).
Proof.
  intros Hn Hd. unfold linewidth_of.
  assert (Hw : (length frequency / 10 = 1)%nat).
  { symmetry. apply (Nat.div_unique _ 10 1 (length frequency - 10)); lia. }
  rewrite Hw. cbn [linspace map sum fold_left].
  set (e := exp _).
  assert (He : e / (0 + e) = 1).
  { field. apply Rgt_not_eq. unfold e. apply exp_pos. }
  rewrite He. rewrite convolve_same_unit.
  - reflexivity.
  - destruct data; [congruence | discriminate].
Qed.

(** The instance of the ten-point dip. *)
Lemma linewidth_unsmoothed_witness :
  linewidth_of sweep10 dip10
  = (derivative <- convolve_same [1; -1] (map Cabs dip10) ;;
     imax <- argmax (trim 1 derivative) ;;
     fhi <- index sweep10 imax ;;
     imin <- argmin (trim 1 derivative) ;;
     flo <- index sweep10 imin ;;
     Ok (fhi - flo)).
Proof.
  apply (linewidth_unsmoothed sweep10 dip10).
  - cbn [sweep10 length]. lia.
  - discriminate.
Defined.

(** The guessed losses reproduce the depth of the dip: with them, and
    without asymmetry, the linear model on resonance is the smallest
    magnitude of the data. *)
Theorem guess_reproduces_dip_depth
        frequency data lowest resonance_frequency coupling_loss internal_loss :
  (10 <= length frequency)%nat ->
  length data = length frequency ->
  Forall (fun f => f <> 0) frequency ->
  amin (map Cabs data) = Ok lowest ->
  0 < lowest < 1 ->
  guess_smooth frequency data
  = Ok (resonance_frequency, Finite coupling_loss, Finite internal_loss) ->
  0 < coupling_loss ->
  shunt (PyFloat resonance_frequency) resonance_frequency internal_loss
        coupling_loss 0
  = Scalar (Some (of_real lowest)).
Proof.
  intros Hn Hd Hf Hm [Hl0 Hl1] Hg Hc.
  destruct (guess_smooth_value frequency data lowest Hn Hd Hf Hm)
    as (i & rf & lw & ratio & E & _ & _ & _ & _ & _ & Hrf0 & _ & Hr & _ & Hp);
    try lra.
  destruct Hr as [-> Hq]; [lra |].
  rewrite E in Hg. inversion Hg; subst. clear Hg.
  set (q := 1 / lowest - 1) in *.
  set (lc := lw / resonance_frequency / (1 + 1 / q)) in *.
  assert (Hq0 : 0 < q).
  { unfold q. assert (1 < 1 / lowest); [| lra].
    apply Rmult_lt_reg_r with lowest; [lra |].
    replace (1 / lowest * lowest) with 1 by (field; lra). lra. }
  assert (Eli : lw / resonance_frequency * (1 / q) / (1 + 1 / q)
                = lc * (1 / q)) by (unfold lc; field; repeat split; lra).
  rewrite Eli.
  assert (Hli : 0 <= lc * (1 / q)).
  { apply Rmult_le_pos; [lra |]. apply Rlt_le. apply Rdiv_lt_0_compat; lra. }
  unfold shunt. rewrite shunt_at_some; try lra.
  - do 2 f_equal. unfold lorentzian, of_real.
    apply C_eq; cbn [re im]; unfold q; field; repeat split; try lra.
    all: fold q; try lra.
  - apply Rmult_le_pos; [assumption |]. apply Rlt_le, Rinv_0_lt_compat; lra.
Qed.

(** The instance of the ten-point dip, of depth [1 / 2]. *)
Lemma guess_reproduces_dip_depth_witness :
  shunt (PyFloat 5) 5 (1 / 10) (1 / 10) 0 = Scalar (Some (of_real (1 / 2))).
Proof.
  apply (guess_reproduces_dip_depth sweep10 dip10 (1 / 2) 5 (1 / 10) (1 / 10)).
  - cbn [sweep10 length]. lia.
  - reflexivity.
  - unfold sweep10. repeat constructor; lra.
  - exact amin_dip10.
  - lra.
  - exact guess_smooth_dip10.
  - lra.
Defined.

Lemma fold_Rmin_le l : forall a, fold_left Rmin l a <= a
                                 /\ Forall (fun y => fold_left Rmin l a <= y) l.
Proof.
  induction l as [|x l IH]; intros a; simpl.
  - split; [lra | constructor].
  - destruct (IH (Rmin a x)) as [H1 H2].
    pose proof (Rmin_l a x). pose proof (Rmin_r a x).
    split; [lra |]. constructor; [lra | assumption].
Qed.

Lemma fold_Rmax_ge l : forall a, a <= fold_left Rmax l a
                                 /\ Forall (fun y => y <= fold_left Rmax l a) l.
Proof.
  induction l as [|x l IH]; intros a; simpl.
  - split; [lra | constructor].
  - destruct (IH (Rmax a x)) as [H1 H2].
    pose proof (Rmax_l a x). pose proof (Rmax_r a x).
    split; [lra |]. constructor; [lra | assumption].
Qed.

Lemma amin_amax_bounds l x :
  In x l -> exists lo hi, amin l = Ok lo /\ amax l = Ok hi /\ lo <= x <= hi.
Proof.
  destruct l as [|a l]; [intros [] |]. intros Hin.
  exists (fold_left Rmin l a), (fold_left Rmax l a).
  split; [reflexivity | split; [reflexivity |]].
  destruct (fold_Rmin_le l a) as [H1 H2].
  destruct (fold_Rmax_ge l a) as [H3 H4].
  rewrite Forall_forall in H2, H4.
  destruct Hin as [<- | Hin]; [lra |].
  specialize (H2 x Hin). specialize (H4 x Hin). lra.
Qed.

Lemma guess_smooth_in_sweep frequency data rf lc li :
  guess_smooth frequency data = Ok (rf, lc, li) -> In rf frequency.
Proof.
  unfold guess_smooth.
  destruct (argmin (map Cabs data)) as [i |]; [| discriminate]. cbn [bind].
  unfold index at 1. destruct (nth_error frequency i) as [f |] eqn:Ef;
    [| discriminate].
  cbn [bind].
  destruct (linewidth_of frequency data); [| discriminate]. cbn [bind].
  destruct (amin (map Cabs data)); [| discriminate]. cbn [bind].
  intros E. inversion E; subst. eapply nth_error_In. exact Ef.
Qed.

(** Whenever [guess_smooth] returns, [guess] returns, and the resonance
    frequency it proposes lies within the bounds it sets for it. *)
Theorem guess_resonance_frequency_within_bounds
        data frequency resonance_frequency coupling_loss internal_loss :
  guess_smooth frequency data
  = Ok (resonance_frequency, coupling_loss, internal_loss) ->
  exists lowest highest,
    guess data frequency
    = Ok [("resonance_frequency"%string,
           {| set_value := Finite resonance_frequency;
              set_min := Some lowest; set_max := Some highest |});
          ("coupling_loss"%string,
           {| set_value := coupling_loss;
              set_min := Some 1e-12; set_max := Some 1 |});
          ("internal_loss"%string,
           {| set_value := internal_loss;
              set_min := Some 1e-12; set_max := Some 1 |});
          ("asymmetry"%string,
           {| set_value := Finite 0; set_min := Some (-10);
              set_max := Some 10 |});
          ("KXin"%string,
           {| set_value := Finite 0; set_min := None; set_max := None |})]
    /\ lowest <= resonance_frequency <= highest.
Proof.
  intros Hg.
  destruct (amin_amax_bounds frequency resonance_frequency
              (guess_smooth_in_sweep _ _ _ _ _ Hg)) as (lo & hi & Elo & Ehi & Hb).
  exists lo, hi. split; [| assumption].
  unfold guess. rewrite Hg. cbn [bind]. rewrite Elo, Ehi. reflexivity.
Qed.

(** The instance of the ten-point dip. *)
Lemma guess_witness :
  exists lowest highest,
    guess dip10 sweep10
    = Ok [("resonance_frequency"%string,
           {| set_value := Finite 5;
              set_min := Some lowest; set_max := Some highest |});
          ("coupling_loss"%string,
           {| set_value := Finite (1 / 10);
              set_min := Some 1e-12; set_max := Some 1 |});
          ("internal_loss"%string,
           {| set_value := Finite (1 / 10);
              set_min := Some 1e-12; set_max := Some 1 |});
          ("asymmetry"%string,
           {| set_value := Finite 0; set_min := Some (-10);
              set_max := Some 10 |});
          ("KXin"%string,
           {| set_value := Finite 0; set_min := None; set_max := None |})]
    /\ lowest <= 5 <= highest.
Proof.
  apply (guess_resonance_frequency_within_bounds dip10 sweep10 5
           (Finite (1 / 10)) (Finite (1 / 10))).
  exact guess_smooth_dip10.
Defined.

(** ** The claims *)

(** C1.  The root returned at each point should satisfy the cubic in each
    of the three discriminant cases.  It does not in the one-real-root
    case when the cube root of line 51 is zero: for all physically valid
    parameters the detuning [-(sqrt 3 / 2) (coupling_loss + internal_loss)]
    has [delta0 = 0] and [delta1 < 0], the code divides [0 / 0], and the
    entry returned is not a number (so not a root), whatever [choose] is. *)
Theorem kerr_detuning_not_a_root_at_degenerate_point
        coupling_loss internal_loss KXin choose :
  0 < coupling_loss < 1 -> 0 < internal_loss < 1 -> 0 <= KXin ->
  snd (kerr_detuning coupling_loss internal_loss KXin choose
         (Array1 [- (sqrt 3 / 2) * (coupling_loss + internal_loss)]))
  = Ok (Array [None]).
Proof.
  intros Hc Hi HK. cbn [kerr_detuning snd].
  rewrite kerr_roots_degenerate; [reflexivity |].
  apply degenerate_lower_branch; lra.
Qed.

(** The instance with both losses [1 / 2] and no drive. *)
Lemma kerr_detuning_not_a_root_witness :
  snd (kerr_detuning (1 / 2) (1 / 2) 0 np_min
         (Array1 [- (sqrt 3 / 2) * (1 / 2 + 1 / 2)]))
  = Ok (Array [None]).
Proof.
  apply (kerr_detuning_not_a_root_at_degenerate_point (1 / 2) (1 / 2) 0 np_min);
    lra.
Defined.

(** C2.  At zero drive the nonlinear model should equal the linear one at
    every frequency.  At the frequency whose detuning is the degenerate
    point of C1 the resolver returns no number, and the nonlinear model
    has no value where the linear model has one. *)
Theorem shunt_nonlinear_differs_at_zero_drive
        choose resonance_frequency internal_loss coupling_loss asymmetry :
  0 < resonance_frequency -> 0 < internal_loss < 1 -> 0 < coupling_loss < 1 ->
  let x := - (sqrt 3 / 2) * (coupling_loss + internal_loss) in
  let frequency := PyFloat (resonance_frequency * (1 + x)) in
  shunt_nonlinear choose frequency resonance_frequency internal_loss
                  coupling_loss asymmetry 0
  = Ok (Scalar None)
  /\ shunt frequency resonance_frequency internal_loss coupling_loss asymmetry
     = Scalar (Some (lorentzian internal_loss coupling_loss asymmetry x)).
Proof.
  intros Hrf Hi Hc x frequency.
  assert (Hx : resonance_frequency * (1 + x) / resonance_frequency - 1 = x)
    by (field; lra).
  split.
  - unfold shunt_nonlinear, frequency.
    destruct (Req_dec_T resonance_frequency 0) as [|_]; [lra |].
    cbn [kerr_detuning snd]. rewrite Hx.
    rewrite kerr_roots_degenerate by (apply degenerate_lower_branch; lra).
    cbn [bind hd]. unfold nonlinear_at. reflexivity.
  - unfold shunt, frequency. f_equal.
    rewrite shunt_at_some; try lra.
    + now rewrite Hx.
    + apply Rlt_le. apply Rdiv_lt_0_compat; lra.
Qed.

(** The instance with [resonance_frequency = 1] and both losses [1 / 2]. *)
Lemma shunt_nonlinear_differs_witness :
  shunt_nonlinear np_min
    (PyFloat (1 * (1 + - (sqrt 3 / 2) * (1 / 2 + 1 / 2)))) 1 (1 / 2) (1 / 2) 0 0
  = Ok (Scalar None)
  /\ shunt (PyFloat (1 * (1 + - (sqrt 3 / 2) * (1 / 2 + 1 / 2)))) 1 (1 / 2)
           (1 / 2) 0
     = Scalar (Some (lorentzian (1 / 2) (1 / 2) 0
                                (- (sqrt 3 / 2) * (1 / 2 + 1 / 2)))).
Proof.
  apply (shunt_nonlinear_differs_at_zero_drive np_min 1 (1 / 2) (1 / 2) 0); lra.
Defined.



(** C4.  Round trip: [ShuntFitter.invert], with the same coupling loss and
    asymmetry, maps the value of the linear shunt model back to the
    detuning [frequency / resonance_frequency - 1] and the internal loss,
    at a scalar and at every entry of an array. *)
Theorem invert_shunt_round_trip
        frequency resonance_frequency internal_loss coupling_loss asymmetry :
  0 < resonance_frequency -> 0 < internal_loss -> 0 < coupling_loss ->
  invert coupling_loss asymmetry
         (shunt frequency resonance_frequency internal_loss coupling_loss
                asymmetry)
  = match frequency with
    | PyFloat f | Array0 f =>
        (Scalar (Some (f / resonance_frequency - 1)),
         Scalar (Some internal_loss))
    | Array1 fs =>
        (Array (map (fun f => Some (f / resonance_frequency - 1)) fs),
         Array (map (fun _ => Some internal_loss) fs))
    end.
Proof.
  intros Hrf Hi Hc.
  assert (Hq : 0 <= internal_loss / coupling_loss)
    by (apply Rlt_le; apply Rdiv_lt_0_compat; lra).
  assert (Hpt : forall f,
             invert_at coupling_loss asymmetry
               (shunt_at resonance_frequency internal_loss coupling_loss
                         asymmetry f)
             = (Some (f / resonance_frequency - 1), Some internal_loss)).
  { intros f. rewrite shunt_at_some by lra.
    apply invert_at_lorentzian; lra. }
  destruct frequency as [f | f | fs]; cbn [shunt invert].
  - now rewrite Hpt.
  - now rewrite Hpt.
  - rewrite !map_map. f_equal; f_equal; apply map_ext; intros f;
      now rewrite Hpt.
Qed.

(** The instance of the sweep [[1; 2]] with every parameter [1] and no
    asymmetry. *)
Lemma invert_shunt_round_trip_witness :
  invert 1 0 (shunt (Array1 [1; 2]) 1 1 1 0)
  = (Array (map (fun f => Some (f / 1 - 1)) [1; 2]),
     Array (map (fun _ => Some 1) [1; 2])).
Proof. apply (invert_shunt_round_trip (Array1 [1; 2]) 1 1 1 0); lra. Defined.

(** C5.  Where the cubic has more than one distinct real root (the
    repeated-root case with [delta0 <> 0], or three distinct real roots),
    [choose = np.min] and [choose = np.max] return two different real
    roots, the first strictly below the second. *)
Theorem min_max_return_distinct_ordered_roots
        coupling_loss internal_loss KXin detuning i x :
  nth_error detuning i = Some x ->
  multiple_roots coupling_loss internal_loss KXin x ->
  exists lo hi y1 y2,
    snd (kerr_detuning coupling_loss internal_loss KXin np_min
                       (Array1 detuning)) = Ok (Array lo)
    /\ snd (kerr_detuning coupling_loss internal_loss KXin np_max
                          (Array1 detuning)) = Ok (Array hi)
    /\ nth_error lo i = Some (Some y1)
    /\ nth_error hi i = Some (Some y2)
    /\ y1 < y2
    /\ cubic (coef_b x) (coef_c coupling_loss internal_loss x)
             (coef_d coupling_loss KXin) y1 = 0
    /\ cubic (coef_b x) (coef_c coupling_loss internal_loss x)
             (coef_d coupling_loss KXin) y2 = 0.
Proof.
  intros Hi Hm.
  destruct (kerr_roots_chosen coupling_loss internal_loss KXin np_min
              (folds fmin) (reduce_axis0_folds fmin) detuning)
    as (lo & Elo & Hlo).
  destruct (kerr_roots_chosen coupling_loss internal_loss KXin np_max
              (folds fmax) (reduce_axis0_folds fmax) detuning)
    as (hi & Ehi & Hhi).
  destruct (Forall2_nth_error _ _ _ _ _ Hlo Hi) as (r1 & E1 & H1).
  destruct (Forall2_nth_error _ _ _ _ _ Hhi Hi) as (r2 & E2 & H2).
  destruct (chosen_min_max _ _ _ _ _ _ H1 H2 Hm)
    as (y1 & y2 & -> & -> & Hlt & R1 & R2).
  exists lo, hi, y1, y2. cbn [kerr_detuning snd]. rewrite Elo, Ehi.
  repeat split; assumption.
Qed.

(** An instance with three distinct real roots. *)
Lemma min_max_witness :
  exists lo hi y1 y2,
    snd (kerr_detuning (1 / 2) (1 / 2) 2 np_min (Array1 [2])) = Ok (Array lo)
    /\ snd (kerr_detuning (1 / 2) (1 / 2) 2 np_max (Array1 [2]))
       = Ok (Array hi)
    /\ nth_error lo 0 = Some (Some y1)
    /\ nth_error hi 0 = Some (Some y2)
    /\ y1 < y2
    /\ cubic (coef_b 2) (coef_c (1 / 2) (1 / 2) 2) (coef_d (1 / 2) 2) y1 = 0
    /\ cubic (coef_b 2) (coef_c (1 / 2) (1 / 2) 2) (coef_d (1 / 2) 2) y2 = 0.
Proof.
  apply (min_max_return_distinct_ordered_roots (1 / 2) (1 / 2) 2 [2] 0 2).
  - reflexivity.
  - right. unfold delta_at, delta0_at, delta1_at, delta_of, delta0_of,
      delta1_of, coef_b, coef_c, coef_d. lra.
Defined.

(** C6.  With [coupling_loss = 0.01], [internal_loss = 0.001],
    [resonance_frequency = 5e9] and [asymmetry = 0] the linear shunt model
    on resonance is the dip depth
    [1 - coupling_loss / (internal_loss + coupling_loss)]. *)
Theorem on_resonance_dip_depth :
  shunt (PyFloat 5e9) 5e9 0.001 0.01 0
  = Scalar (Some (of_real (1 - 0.01 / (0.001 + 0.01)))).
Proof.
  unfold shunt. rewrite shunt_at_some by lra.
  unfold lorentzian, of_real. do 2 f_equal.
  apply C_eq; cbn [re im]; field; lra.
Qed.

(** C7.  Shape contract, for a tie-break function that reduces the stacked
    candidates along axis 0: a 1-D array gives a 1-D array of the same
    length whose entry [i] is the root chosen for entry [i] of the input; a
    scalar gives a scalar; a zero-dimensional array gives a value of shape
    [()]. *)
Theorem kerr_detuning_shape_contract
        coupling_loss internal_loss KXin choose CS detuning :
  choose_spec CS choose ->
  exists o,
    snd (kerr_detuning coupling_loss internal_loss KXin choose detuning)
    = Ok o
    /\ out_shape o = shape_of detuning
    /\ match detuning, o with
       | PyFloat x, Scalar r | Array0 x, Scalar r =>
           chosen coupling_loss internal_loss KXin CS x r
       | Array1 xs, Array rs =>
           length rs = length xs
           /\ Forall2 (chosen coupling_loss internal_loss KXin CS) xs rs
       | _, _ => False
       end.
Proof.
  intros Hc.
  destruct (kerr_detuning_aligned coupling_loss internal_loss KXin choose CS
                                  detuning Hc) as (o & E & Hs & Ha).
  exists o. repeat split; try assumption.
  destruct detuning, o; try assumption.
  split; [| assumption]. symmetry. eapply Forall2_length. exact Ha.
Qed.

(** The instance of a two-entry array. *)
Lemma kerr_detuning_shape_witness :
  exists o,
    snd (kerr_detuning (1 / 2) (1 / 2) 2 np_min (Array1 [0; 2])) = Ok o
    /\ out_shape o = shape_of (Array1 [0; 2])
    /\ match Array1 [0; 2], o with
       | PyFloat x, Scalar r | Array0 x, Scalar r =>
           chosen (1 / 2) (1 / 2) 2 (folds fmin) x r
       | Array1 xs, Array rs =>
           length rs = length xs
           /\ Forall2 (chosen (1 / 2) (1 / 2) 2 (folds fmin)) xs rs
       | _, _ => False
       end.
Proof.
  apply (kerr_detuning_shape_contract (1 / 2) (1 / 2) 2 np_min (folds fmin)
           (Array1 [0; 2])).
  apply reduce_axis0_folds.
Defined.




(** C9.  [ShuntNonlinearFitter.invert] as claimed: every call raises
    [NotImplementedError].  The body is [pass]: no call raises. *)
Lemma nonlinear_invert_does_not_raise :
  ~ (forall scattering_data,
        nonlinear_invert scattering_data = Raise NotImplementedError).
Proof. intros H. specialize (H (Scalar None)). discriminate H. Qed.

(** C9, amended.  [ShuntNonlinearFitter.invert] is unimplemented: for every
    input it returns [None] and raises nothing. *)
Theorem nonlinear_invert_returns_none scattering_data :
  nonlinear_invert scattering_data = Ok None.
Proof. reflexivity. Qed.

(** C10.  [kerr_detuning] changes its argument only when that is a
    zero-dimensional array, which the call leaves with shape [(1,)]; a
    scalar and a 1-D array are left as they were. *)
Theorem kerr_detuning_argument_effect
        coupling_loss internal_loss KXin choose detuning :
  let after :=
    fst (kerr_detuning coupling_loss internal_loss KXin choose detuning) in
  match detuning with
  | Array0 x => after = Array1 [x] /\ shape_of detuning = []
                /\ shape_of after = [1%nat]
  | _ => after = detuning
  end.
Proof. destruct detuning; cbn; auto. Qed.

(** ** The exact model against binary64 *)

(** With [coupling_loss = internal_loss = 0.5] and [KXin = 0], the double
    nearest to [-sqrt(3)/2] is a detuning at which the computed [delta0] is
    exactly [0.0] and the quotient of line 53 is [0.0 / 0.0], whichever
    way [b ** 3] was rounded. *)
Lemma binary64_degenerate_point :
  forallb Binary64.degenerate_at
          (Binary64.around
             (let b := Binary64.coef_b Binary64.detuning in
              PrimFloat.mul (PrimFloat.mul b b) b))
  = true.
Proof. vm_compute. reflexivity. Qed.

(** On doubles the zero cube root is not confined to that one detuning: at
    [-0.866026] and at [-0.866025] the computed [delta0] is not zero, and
    the sum of line 51 still cancels to [0.0], so that line 53 divides by
    zero and returns an infinity.  The detunings the theorems above call
    well conditioned stay clear of this. *)
Lemma binary64_cancellation :
  forallb (Binary64.cancels_at Binary64.detuning_below)
          (Binary64.around
             (let b := Binary64.coef_b Binary64.detuning_below in
              PrimFloat.mul (PrimFloat.mul b b) b))
  = true
  /\ forallb (Binary64.cancels_at Binary64.detuning_above)
             (Binary64.around
                (let b := Binary64.coef_b Binary64.detuning_above in
                 PrimFloat.mul (PrimFloat.mul b b) b))
     = true.
Proof. split; vm_compute; reflexivity. Qed.

(** At the bifurcation point of the losses [0.5] the computed discriminant
    is zero up to rounding, below [2^-96] in magnitude, whichever way
    [3 ** (-3 / 2)] and [b ** 3] were rounded; with the doubles the code
    computes it is negative, and the point takes the one-real-root branch,
    where the quotient of line 53 is [0.0 / 0.0]. *)
Lemma binary64_bifurcation_point :
  forallb (fun p =>
             forallb (Binary64.discriminant_vanishes_at p)
                     (Binary64.around
                        (let b := Binary64.coef_b Binary64.bifurcation_detuning in
                         PrimFloat.mul (PrimFloat.mul b b) b)))
          (Binary64.around Binary64.pow_3_m32)
  = true
  /\ Binary64.one_real_branch_at
       Binary64.pow_3_m32
       (let b := Binary64.coef_b Binary64.bifurcation_detuning in
        PrimFloat.mul (PrimFloat.mul b b) b)
     = true.
Proof. split; vm_compute; reflexivity. Qed.
